(** * transaction-log: a shallow embedding of the two in-memory logs

    The development follows [MemoryBatchedTransactionLog.ts] and
    [MemorySimpleTransactionLog.ts].  A log is a JavaScript object whose
    private fields hold arrays of object references; the objects themselves
    ([Transaction] and [Commit] records) live in an allocation store, so that
    reference identity ([indexOf], "the same record, not a copy") is part of
    the model.  Every method is a computation in a state-and-exception monad:
    a [throw] keeps whatever was written before it, exactly as in JavaScript.

    Modelling choices, all stated once here:
    - a JavaScript [number] that the code uses as a sequence id, an index or a
      length is an integer of [Z]; timestamps are values of an abstract type
      [Time] with a subtraction;
    - [performance.now()] reads a clock given as a function of the number of
      readings made so far;
    - the caller's code (lifecycle hooks and the visitor given to [replay])
      acts on a caller's world [W]: it returns normally, it does not call
      back into the log and it does not write to the records it is handed;
    - [async] methods have no [await] in their bodies, so each one runs to
      completion when called: a rejected promise is an exception here. *)

From stdpp Require Import base tactics option list list_numbers numbers strings.

Open Scope Z_scope.

(** ** JavaScript arrays *)

Module JS.

(** [relativeStart]/[relativeEnd] of [Array.prototype.slice]: a negative
    index counts from the end, and the result is clamped to [0, len]. *)
Definition clamp (len rel : Z) : Z :=
  if rel <? 0 then Z.max (len + rel) 0 else Z.min rel len.

(** [arr.slice(start, end)]; [end_ = None] is [arr.slice(start)]. *)
Definition slice {A} (arr : list A) (start : Z) (end_ : option Z) : list A :=
  let len := Z.of_nat (length arr) in
  let k := clamp len start in
  let final := match end_ with
               | None => len
               | Some e => clamp len e
               end in
  take (Z.to_nat (final - k)) (drop (Z.to_nat k) arr).

(** [arr[i]]: [None] is [undefined]. *)
Definition index {A} (arr : list A) (i : Z) : option A :=
  if i <? 0 then None else arr !! Z.to_nat i.

Fixpoint indexOf_from (arr : list nat) (x : nat) (i : Z) : Z :=
  match arr with
  | [] => -1
  | y :: arr' => if decide (y = x) then i else indexOf_from arr' x (i + 1)
  end.

(** [arr.indexOf(x)] on an array of object references: strict equality of
    references, first match, [-1] when there is none. *)
Definition indexOf (arr : list nat) (x : nat) : Z := indexOf_from arr x 0.

(** Truthiness of an optional [number] argument: [undefined] and [0] are
    falsy. *)
Definition truthy (n : option Z) : bool :=
  match n with
  | None => false
  | Some z => negb (z =? 0)
  end.

End JS.

(** ** Error messages ([error-messages.ts]) *)

Definition INVALID_SEQUENCE_ID_MESSAGE : string :=
  "Invalid sequence-ID: sequences start with 1.".
Definition LOG_CLOSED_MESSAGE : string :=
  "Cannot perform operation: transaction-log is closed.".
Definition LOG_ALREADY_OPEN_MESSAGE : string :=
  "Transaction-log is already open.".
Definition LOG_ALREADY_CLOSED_MESSAGE : string :=
  "Transaction-log is already closed.".
Definition LOG_OPEN_CANNOT_CLEAR_MESSAGE : string :=
  "Transaction-log is open; cannot clear.".
Definition BUFFER_EMPTY_CANNOT_COMMIT_MESSAGE : string :=
  "The transaction buffer is empty; cannot commit.".
Definition INVALID_COMMIT_MESSAGE : string :=
  "Invalid commit.".

(** ** Records ([types.ts]) *)

(** An object reference: the position of the object in its store. *)
Definition loc := nat.

Record Transaction (Time T : Type) := mkTransaction {
  txn_time : Time;
  txn_data : T
}.
Arguments mkTransaction {Time T} _ _.
Arguments txn_time {Time T} _.
Arguments txn_data {Time T} _.

Record Commit (Time : Type) := mkCommit {
  commit_time : Time;
  commit_transactions : list Z
}.
Arguments mkCommit {Time} _ _.
Arguments commit_time {Time} _.
Arguments commit_transactions {Time} _.

(** [transactions] holds the values of [this.#transactions[id - 1]]: a
    reference, or [None] for [undefined]. *)
Record CommitInfo (Time : Type) := mkCommitInfo {
  ci_id : Z;
  ci_time : Time;
  ci_transactions : list (option loc)
}.
Arguments mkCommitInfo {Time} _ _ _.
Arguments ci_id {Time} _.
Arguments ci_time {Time} _.
Arguments ci_transactions {Time} _.

(** ** The runtime: object stores, clock, timers and the caller's world *)

Record Runtime (Time T W : Type) := mkRuntime {
  txn_store : list (Transaction Time T);
  commit_store : list (Commit Time);
  ticks : nat;
  timers : list Time;
  world : W
}.
Arguments mkRuntime {Time T W} _ _ _ _ _.
Arguments txn_store {Time T W} _.
Arguments commit_store {Time T W} _.
Arguments ticks {Time T W} _.
Arguments timers {Time T W} _.
Arguments world {Time T W} _.

(** A log object [this] together with the runtime it lives in. *)
Record Sys (L Time T W : Type) := mkSys {
  this : L;
  runtime : Runtime Time T W
}.
Arguments mkSys {L Time T W} _ _.
Arguments this {L Time T W} _.
Arguments runtime {L Time T W} _.

(** ** Exceptions and the method monad *)

Inductive Error :=
| JsError (message : string)   (* [new Error(message)] *)
| TypeError.                   (* property read on [undefined] *)

Inductive Result (A : Type) :=
| Ok (a : A)
| Throw (e : Error).
Arguments Ok {A} _.
Arguments Throw {A} _.

Definition M (St A : Type) : Type := St → Result A * St.

Definition ret {St A} (a : A) : M St A := λ s, (Ok a, s).
Definition bind {St A B} (m : M St A) (k : A → M St B) : M St B :=
  λ s, match m s with
       | (Ok a, s') => k a s'
       | (Throw e, s') => (Throw e, s')
       end.
Definition throw {St A} (e : Error) : M St A := λ s, (Throw e, s).
Definition gets {St A} (f : St → A) : M St A := λ s, (Ok (f s), s).
Definition modify {St} (f : St → St) : M St unit := λ s, (Ok tt, f s).

#[global] Instance M_ret {St} : MRet (M St) := @ret St.
#[global] Instance M_bind {St} : MBind (M St) := λ A B k m, bind m k.

(** [arr.map(f)] where [f] may throw: the first exception ends the map. *)
Fixpoint mapM {St A B} (f : A → M St B) (arr : list A) : M St (list B) :=
  match arr with
  | [] => ret []
  | x :: arr' => y ← f x; ys ← mapM f arr'; ret (y :: ys)
  end.

(** [for (const x of arr) body(x)], for a [body] that does not write to
    [arr]: the iterator then yields the elements that [arr] had at the start
    of the loop. *)
Fixpoint for_of {St A} (arr : list A) (body : A → M St unit) : M St unit :=
  match arr with
  | [] => ret tt
  | x :: arr' => body x;; for_of arr' body
  end.

(** [for (let i = i0; ...; i++) body(i)], run for [n] more rounds. *)
Fixpoint for_count {St} (n : nat) (i : nat) (body : nat → M St unit) : M St unit :=
  match n with
  | O => ret tt
  | S n' => body i;; for_count n' (S i) body
  end.

Section Runtime.
Context {L Time T W : Type}.
Variable now : nat → Time.

Local Abbreviation State := (Sys L Time T W).

Definition with_runtime (f : Runtime Time T W → Runtime Time T W) (s : State) : State :=
  mkSys (this s) (f (runtime s)).

Definition with_this (f : L → L) (s : State) : State :=
  mkSys (f (this s)) (runtime s).

(** [performance.now()] *)
Definition performance_now : M State Time :=
  λ s, (Ok (now (ticks (runtime s))),
        with_runtime (λ r, mkRuntime (txn_store r) (commit_store r)
                                     (S (ticks r)) (timers r) (world r)) s).

(** [setTimeout(() => {}, delay)]: the timer is recorded, nothing waits. *)
Definition setTimeout (delay : Time) : M State unit :=
  modify (with_runtime (λ r, mkRuntime (txn_store r) (commit_store r)
                                       (ticks r) (timers r ++ [delay]) (world r))).

(** Evaluation of an object literal of type [Transaction]. *)
Definition new_Transaction (txn : Transaction Time T) : M State loc :=
  λ s, (Ok (length (txn_store (runtime s))),
        with_runtime (λ r, mkRuntime (txn_store r ++ [txn]) (commit_store r)
                                     (ticks r) (timers r) (world r)) s).

(** Evaluation of an object literal of type [Commit]. *)
Definition new_Commit (c : Commit Time) : M State loc :=
  λ s, (Ok (length (commit_store (runtime s))),
        with_runtime (λ r, mkRuntime (txn_store r) (commit_store r ++ [c])
                                     (ticks r) (timers r) (world r)) s).

(** Reading the fields of the object behind a value; [undefined] has none. *)
Definition read_Transaction (v : option loc) : M State (Transaction Time T) :=
  λ s, match v ≫= (λ l, txn_store (runtime s) !! l) with
       | Some txn => (Ok txn, s)
       | None => (Throw TypeError, s)
       end.

Definition read_Commit (v : option loc) : M State (Commit Time) :=
  λ s, match v ≫= (λ l, commit_store (runtime s) !! l) with
       | Some c => (Ok c, s)
       | None => (Throw TypeError, s)
       end.

(** A call of the caller's code. *)
Definition call (f : W → W) : M State unit :=
  modify (with_runtime (λ r, mkRuntime (txn_store r) (commit_store r)
                                       (ticks r) (timers r) (f (world r)))).

(** [hook?.apply(this, args)] *)
Definition call_opt (hook : option (W → W)) : M State unit :=
  match hook with
  | Some f => call f
  | None => ret tt
  end.

End Runtime.

(** ** Lifecycle hooks ([types.ts]) *)

Record SimpleTransactionLogCallbacks (T W : Type) := mkSimpleCallbacks {
  s_onopen : option (W → W);
  s_onclose : option (W → W);
  s_onclear : option (W → W);
  s_onappend : option (T → W → W)
}.
Arguments mkSimpleCallbacks {T W} _ _ _ _.
Arguments s_onopen {T W} _.
Arguments s_onclose {T W} _.
Arguments s_onclear {T W} _.
Arguments s_onappend {T W} _.

Record BatchedTransactionLogCallbacks (Time T W : Type) := mkBatchedCallbacks {
  onopen : option (W → W);
  onclose : option (W → W);
  onclear : option (W → W);
  onappend : option (T → W → W);
  oncommit : option (Commit Time → W → W)
}.
Arguments mkBatchedCallbacks {Time T W} _ _ _ _ _.
Arguments onopen {Time T W} _.
Arguments onclose {Time T W} _.
Arguments onclear {Time T W} _.
Arguments onappend {Time T W} _.
Arguments oncommit {Time T W} _.

(** ** MemoryBatchedTransactionLog *)

Module Batched.

(** The private fields [#commits], [#transactions], [#buffer],
    [#callbacks] and [#open]. *)
Record Log (Time T W : Type) := mkLog {
  p_commits : list loc;
  p_transactions : list loc;
  p_buffer : list loc;
  p_callbacks : BatchedTransactionLogCallbacks Time T W;
  p_open : bool
}.
Arguments mkLog {Time T W} _ _ _ _ _.
Arguments p_commits {Time T W} _.
Arguments p_transactions {Time T W} _.
Arguments p_buffer {Time T W} _.
Arguments p_callbacks {Time T W} _.
Arguments p_open {Time T W} _.

Section Methods.
Context {Time T W : Type}.
Variable tsub : Time → Time → Time.
Variable now : nat → Time.

Local Abbreviation State := (Sys (Log Time T W) Time T W).
Local Abbreviation Log := (Log Time T W).

Definition constructor (callbacks : option (BatchedTransactionLogCallbacks Time T W)) : Log :=
  mkLog [] [] []
        (default (mkBatchedCallbacks None None None None None) callbacks)
        false.

Definition set_open (b : bool) : M State unit :=
  modify (with_this (λ l : Log,
    mkLog (p_commits l) (p_transactions l) (p_buffer l) (p_callbacks l) b)).
Definition set_commits (f : list loc → list loc) : M State unit :=
  modify (with_this (λ l : Log,
    mkLog (f (p_commits l)) (p_transactions l) (p_buffer l) (p_callbacks l) (p_open l))).
Definition set_transactions (f : list loc → list loc) : M State unit :=
  modify (with_this (λ l : Log,
    mkLog (p_commits l) (f (p_transactions l)) (p_buffer l) (p_callbacks l) (p_open l))).
Definition set_buffer (f : list loc → list loc) : M State unit :=
  modify (with_this (λ l : Log,
    mkLog (p_commits l) (p_transactions l) (f (p_buffer l)) (p_callbacks l) (p_open l))).

Definition field {A} (f : Log → A) : M State A := gets (λ s : State, f (this s)).

Definition isOpen : M State bool := field p_open.

Definition open : M State unit :=
  o ← field p_open;
  if o : bool then throw (JsError LOG_ALREADY_OPEN_MESSAGE)
  else
    set_open true;;
    cbs ← field p_callbacks;
    call_opt (onopen cbs).

Definition close : M State unit :=
  o ← field p_open;
  if negb o then throw (JsError LOG_ALREADY_CLOSED_MESSAGE)
  else
    set_open false;;
    cbs ← field p_callbacks;
    call_opt (onclose cbs).

Definition clear : M State unit :=
  o ← field p_open;
  if o : bool then throw (JsError LOG_OPEN_CANNOT_CLEAR_MESSAGE)
  else
    set_commits (λ _, []);;
    set_transactions (λ _, []);;
    set_buffer (λ _, []);;
    cbs ← field p_callbacks;
    call_opt (onclear cbs).

Definition commit : M State unit :=
  o ← field p_open;
  if negb o then throw (JsError LOG_CLOSED_MESSAGE)
  else
    len ← field (λ l, Z.of_nat (length (p_buffer l)));
    if len =? 0 then throw (JsError BUFFER_EMPTY_CANNOT_COMMIT_MESSAGE)
    else
      commitId ← field (λ l, Z.of_nat (length (p_commits l)) + 1);
      transactionIds ← field (λ l,
        imap (λ i _, Z.of_nat (length (p_transactions l)) + Z.of_nat i + 1)
             (p_buffer l));
      time ← performance_now now;
      let commit_obj := mkCommit time transactionIds in
      commit ← new_Commit commit_obj;
      set_commits (λ cs, cs ++ [commit]);;
      buf ← field p_buffer;
      set_transactions (λ txns, txns ++ buf);;
      set_buffer (λ _, []);;
      cbs ← field p_callbacks;
      call_opt ((λ f, f commit_obj) <$> oncommit cbs).

Definition countCommits : M State Z :=
  o ← field p_open;
  if negb o then throw (JsError LOG_CLOSED_MESSAGE)
  else field (λ l, Z.of_nat (length (p_commits l))).

Definition countTransactions : M State Z :=
  o ← field p_open;
  if negb o then throw (JsError LOG_CLOSED_MESSAGE)
  else field (λ l, Z.of_nat (length (p_transactions l))).

Definition append (data : T) : M State unit :=
  o ← field p_open;
  if negb o then throw (JsError LOG_CLOSED_MESSAGE)
  else
    time ← performance_now now;
    txn ← new_Transaction (mkTransaction time data);
    set_buffer (λ buf, buf ++ [txn]);;
    cbs ← field p_callbacks;
    call_opt ((λ f, f data) <$> onappend cbs).

(** One round of the timed loop of [replay]. *)
Definition replay_timed_round (callback : T → W → W) (i : nat) : M State unit :=
  txn ← field (λ l, JS.index (p_transactions l) (Z.of_nat i));
  nextTxn ← field (λ l, JS.index (p_transactions l) (Z.of_nat i + 1));
  match nextTxn with
  | Some _ =>
      start ← performance_now now;
      t ← read_Transaction txn;
      call (callback (txn_data t));;
      finish ← performance_now now;
      nt ← read_Transaction nextTxn;
      t' ← read_Transaction txn;
      setTimeout (tsub (tsub (txn_time nt) (txn_time t')) (tsub finish start))
  | None =>
      t ← read_Transaction txn;
      call (callback (txn_data t))
  end.

Definition replay (callback : T → W → W) (simulateTime : option bool) : M State unit :=
  o ← field p_open;
  if negb o then throw (JsError LOG_CLOSED_MESSAGE)
  else if default false simulateTime then
    transactionsLength ← field (λ l, length (p_transactions l));
    for_count transactionsLength 0 (replay_timed_round callback)
  else
    txns ← field p_transactions;
    for_of txns (λ txn,
      t ← read_Transaction (Some txn);
      call (callback (txn_data t))).

(** The arrow function given to [map] in [getSeqRangeCommits]; the source
    writes it out twice, once per branch, with the same text. *)
Definition commit_info (commit : loc) : M State (CommitInfo Time) :=
  cs ← field p_commits;
  let commitId := JS.indexOf cs commit + 1 in
  if commitId =? 0 then throw (JsError INVALID_COMMIT_MESSAGE)
  else
    c ← read_Commit (Some commit);
    txns ← field p_transactions;
    mret (mkCommitInfo commitId (commit_time c)
            (map (λ transactionId, JS.index txns (transactionId - 1))
                 (commit_transactions c))).

Definition getSeqRangeCommits (startId : Z) (finishId : option Z)
  : M State (list (CommitInfo Time)) :=
  o ← field p_open;
  if negb o then throw (JsError LOG_CLOSED_MESSAGE)
  else if startId <? 1 then throw (JsError INVALID_SEQUENCE_ID_MESSAGE)
  else if JS.truthy finishId then
    cs ← field p_commits;
    mapM commit_info (JS.slice cs (startId - 1) finishId)
  else
    cs ← field p_commits;
    mapM commit_info (JS.slice cs (startId - 1) None).

Definition getSeqRangeTransactions (startId : Z) (finishId : option Z)
  : M State (list loc) :=
  o ← field p_open;
  if negb o then throw (JsError LOG_CLOSED_MESSAGE)
  else if startId <? 1 then throw (JsError INVALID_SEQUENCE_ID_MESSAGE)
  else if JS.truthy finishId then
    txns ← field p_transactions;
    mret (JS.slice txns (startId - 1) finishId)
  else
    txns ← field p_transactions;
    mret (JS.slice txns (startId - 1) None).

End Methods.
(** *** The log as a state machine *)

Section Machine.
Context {Time T W : Type}.
Variable tsub : Time → Time → Time.
Variable now : nat → Time.

Local Abbreviation State := (Sys (Log Time T W) Time T W).

(** A call of a method of the public interface. *)
Inductive Op :=
| OpIsOpen
| OpOpen
| OpClose
| OpClear
| OpCommit
| OpCountCommits
| OpCountTransactions
| OpAppend (data : T)
| OpReplay (callback : T → W → W) (simulateTime : option bool)
| OpGetSeqRangeCommits (startId : Z) (finishId : option Z)
| OpGetSeqRangeTransactions (startId : Z) (finishId : option Z).

(** The state a call leaves behind, whether it returns or throws. *)
Definition exec (op : Op) (s : State) : State :=
  match op with
  | OpIsOpen => snd (isOpen s)
  | OpOpen => snd (open s)
  | OpClose => snd (close s)
  | OpClear => snd (clear s)
  | OpCommit => snd (commit now s)
  | OpCountCommits => snd (countCommits s)
  | OpCountTransactions => snd (countTransactions s)
  | OpAppend data => snd (append now data s)
  | OpReplay callback simulateTime => snd (replay tsub now callback simulateTime s)
  | OpGetSeqRangeCommits startId finishId => snd (getSeqRangeCommits startId finishId s)
  | OpGetSeqRangeTransactions startId finishId =>
      snd (getSeqRangeTransactions startId finishId s)
  end.

Definition run (ops : list Op) (s : State) : State :=
  foldl (λ s op, exec op s) s ops.

(** A freshly constructed log, in any runtime. *)
Definition initial (s : State) : Prop :=
  ∃ callbacks, this s = constructor callbacks.

Inductive reachable : State → Prop :=
| reachable_initial s : initial s → reachable s
| reachable_exec s op : reachable s → reachable (exec op s).

(** Each id is the successor of the one before it. *)
Fixpoint contiguous (ids : list Z) : bool :=
  match ids with
  | [] => true
  | a :: ids' =>
      match ids' with
      | [] => true
      | b :: _ => (b =? a + 1) && contiguous ids'
      end
  end.

(** Every id lies in [1, n]. *)
Definition within (n : Z) (ids : list Z) : bool :=
  forallb (λ id, (1 <=? id) && (id <=? n)) ids.

(** The transaction ids of the commit object behind [c] are a contiguous
    run within [1, countTransactions], and each of them is the position
    of a committed transaction. *)
Definition commit_ok (s : State) (c : loc) : Prop :=
  ∃ obj, commit_store (runtime s) !! c = Some obj
       ∧ contiguous (commit_transactions obj) = true
       ∧ within (Z.of_nat (length (p_transactions (this s))))
                (commit_transactions obj) = true
       ∧ Forall (λ id, is_Some (JS.index (p_transactions (this s)) (id - 1)))
                (commit_transactions obj).

Definition commit_ids_ok (s : State) : Prop :=
  Forall (commit_ok s) (p_commits (this s)).

(** Every reference the log holds to a [Transaction] has its record. *)
Definition records_ok (s : State) : Prop :=
  Forall (λ l, is_Some (txn_store (runtime s) !! l))
         (p_transactions (this s) ++ p_buffer (this s)).

Definition wf (s : State) : Prop :=
  commit_ids_ok s ∧ NoDup (p_commits (this s)) ∧ records_ok s.

(** What [getSeqRangeCommits] is to return for the commit with sequence
    id [id]: the id itself, the time of the commit at that position, and
    for each transaction id of the commit the reference stored at that
    position of the committed transactions, whose record exists. *)
Definition describes (s : State) (id : Z) (info : CommitInfo Time) : Prop :=
  ci_id info = id ∧
  ∃ c obj,
    p_commits (this s) !! Z.to_nat (id - 1) = Some c
    ∧ commit_store (runtime s) !! c = Some obj
    ∧ ci_time info = commit_time obj
    ∧ Forall2 (λ tid v, ∃ l, v = Some l
                 ∧ 1 ≤ tid
                 ∧ p_transactions (this s) !! Z.to_nat (tid - 1) = Some l
                 ∧ is_Some (txn_store (runtime s) !! l))
              (commit_transactions obj) (ci_transactions info).

End Machine.
End Batched.

(** ** MemorySimpleTransactionLog *)

Module Simple.

(** The private fields [#transactions], [#callbacks] and [#open]. *)
Record Log (T W : Type) := mkLog {
  p_transactions : list loc;
  p_callbacks : SimpleTransactionLogCallbacks T W;
  p_open : bool
}.
Arguments mkLog {T W} _ _ _.
Arguments p_transactions {T W} _.
Arguments p_callbacks {T W} _.
Arguments p_open {T W} _.

Section Methods.
Context {Time T W : Type}.
Variable tsub : Time → Time → Time.
Variable now : nat → Time.

Local Abbreviation State := (Sys (Log T W) Time T W).
Local Abbreviation Log := (Log T W).

Definition constructor (callbacks : option (SimpleTransactionLogCallbacks T W)) : Log :=
  mkLog [] (default (mkSimpleCallbacks None None None None) callbacks) false.

Definition set_open (b : bool) : M State unit :=
  modify (with_this (λ l : Log, mkLog (p_transactions l) (p_callbacks l) b)).
Definition set_transactions (f : list loc → list loc) : M State unit :=
  modify (with_this (λ l : Log, mkLog (f (p_transactions l)) (p_callbacks l) (p_open l))).

Definition field {A} (f : Log → A) : M State A := gets (λ s : State, f (this s)).

Definition isOpen : M State bool := field p_open.

Definition open : M State unit :=
  o ← field p_open;
  if o : bool then throw (JsError LOG_ALREADY_OPEN_MESSAGE)
  else
    set_open true;;
    cbs ← field p_callbacks;
    call_opt (s_onopen cbs).

Definition close : M State unit :=
  o ← field p_open;
  if negb o then throw (JsError LOG_ALREADY_CLOSED_MESSAGE)
  else
    set_open false;;
    cbs ← field p_callbacks;
    call_opt (s_onclose cbs).

Definition clear : M State unit :=
  o ← field p_open;
  if o : bool then throw (JsError LOG_OPEN_CANNOT_CLEAR_MESSAGE)
  else
    set_transactions (λ _, []);;
    cbs ← field p_callbacks;
    call_opt (s_onclear cbs).

Definition countTransactions : M State Z :=
  o ← field p_open;
  if negb o then throw (JsError LOG_CLOSED_MESSAGE)
  else field (λ l, Z.of_nat (length (p_transactions l))).

Definition append (data : T) : M State unit :=
  o ← field p_open;
  if negb o then throw (JsError LOG_CLOSED_MESSAGE)
  else
    time ← performance_now now;
    txn ← new_Transaction (mkTransaction time data);
    set_transactions (λ txns, txns ++ [txn]);;
    cbs ← field p_callbacks;
    call_opt ((λ f, f data) <$> s_onappend cbs).

(** One round of the timed loop of [replay]. *)
Definition replay_timed_round (callback : T → W → W) (i : nat) : M State unit :=
  txn ← field (λ l, JS.index (p_transactions l) (Z.of_nat i));
  nextTxn ← field (λ l, JS.index (p_transactions l) (Z.of_nat i + 1));
  match nextTxn with
  | Some _ =>
      start ← performance_now now;
      t ← read_Transaction txn;
      call (callback (txn_data t));;
      finish ← performance_now now;
      nt ← read_Transaction nextTxn;
      t' ← read_Transaction txn;
      setTimeout (tsub (tsub (txn_time nt) (txn_time t')) (tsub finish start))
  | None =>
      t ← read_Transaction txn;
      call (callback (txn_data t))
  end.

Definition replay (callback : T → W → W) (simulateTime : option bool) : M State unit :=
  o ← field p_open;
  if negb o then throw (JsError LOG_CLOSED_MESSAGE)
  else if default false simulateTime then
    transactionsLength ← field (λ l, length (p_transactions l));
    for_count transactionsLength 0 (replay_timed_round callback)
  else
    txns ← field p_transactions;
    for_of txns (λ txn,
      t ← read_Transaction (Some txn);
      call (callback (txn_data t))).

Definition getSeqRangeTransactions (startId : Z) (finishId : option Z)
  : M State (list loc) :=
  o ← field p_open;
  if negb o then throw (JsError LOG_CLOSED_MESSAGE)
  else if startId <? 1 then throw (JsError INVALID_SEQUENCE_ID_MESSAGE)
  else if JS.truthy finishId then
    txns ← field p_transactions;
    mret (JS.slice txns (startId - 1) finishId)
  else
    txns ← field p_transactions;
    mret (JS.slice txns (startId - 1) None).

End Methods.
Section Machine.
Context {Time T W : Type}.
Variable tsub : Time → Time → Time.
Variable now : nat → Time.

Local Abbreviation State := (Sys (Log T W) Time T W).

Inductive Op :=
| OpIsOpen
| OpOpen
| OpClose
| OpClear
| OpCountTransactions
| OpAppend (data : T)
| OpReplay (callback : T → W → W) (simulateTime : option bool)
| OpGetSeqRangeTransactions (startId : Z) (finishId : option Z).

Definition exec (op : Op) (s : State) : State :=
  match op with
  | OpIsOpen => snd (isOpen s)
  | OpOpen => snd (open s)
  | OpClose => snd (close s)
  | OpClear => snd (clear s)
  | OpCountTransactions => snd (countTransactions s)
  | OpAppend data => snd (append now data s)
  | OpReplay callback simulateTime => snd (replay tsub now callback simulateTime s)
  | OpGetSeqRangeTransactions startId finishId =>
      snd (getSeqRangeTransactions startId finishId s)
  end.

Definition run (ops : list Op) (s : State) : State :=
  foldl (λ s op, exec op s) s ops.

Definition initial (s : State) : Prop :=
  ∃ callbacks, this s = constructor callbacks.

Inductive reachable : State → Prop :=
| reachable_initial s : initial s → reachable s
| reachable_exec s op : reachable s → reachable (exec op s).

Definition records_ok (s : State) : Prop :=
  Forall (λ l, is_Some (txn_store (runtime s) !! l)) (p_transactions (this s)).

End Machine.
End Simple.

(** ** The text shared by the two classes

    [replay] and [getSeqRangeTransactions] have the same body in both
    classes; here it is once, over the two fields it reads.  The methods of
    the two modules are instances of these definitions (see [replay_shared]
    and [range_shared] below), so that the loops are reasoned about once. *)

Section Shared.
Context {L Time T W : Type}.
Variable tsub : Time → Time → Time.
Variable now : nat → Time.
Variable is_open : L → bool.
Variable txns_of : L → list loc.

Local Abbreviation State := (Sys L Time T W).

Definition visit (callback : T → W → W) (txn : loc) : M State unit :=
  t ← read_Transaction (Some txn);
  call (callback (txn_data t)).

Definition timed_round (callback : T → W → W) (i : nat) : M State unit :=
  txn ← gets (λ s : State, JS.index (txns_of (this s)) (Z.of_nat i));
  nextTxn ← gets (λ s : State, JS.index (txns_of (this s)) (Z.of_nat i + 1));
  match nextTxn with
  | Some _ =>
      start ← performance_now now;
      t ← read_Transaction txn;
      call (callback (txn_data t));;
      finish ← performance_now now;
      nt ← read_Transaction nextTxn;
      t' ← read_Transaction txn;
      setTimeout (tsub (tsub (txn_time nt) (txn_time t')) (tsub finish start))
  | None =>
      t ← read_Transaction txn;
      call (callback (txn_data t))
  end.

Definition shared_replay (callback : T → W → W) (simulateTime : option bool)
  : M State unit :=
  o ← gets (λ s : State, is_open (this s));
  if negb o then throw (JsError LOG_CLOSED_MESSAGE)
  else if default false simulateTime then
    transactionsLength ← gets (λ s : State, length (txns_of (this s)));
    for_count transactionsLength 0 (timed_round callback)
  else
    txns ← gets (λ s : State, txns_of (this s));
    for_of txns (visit callback).

Definition shared_range (startId : Z) (finishId : option Z) : M State (list loc) :=
  o ← gets (λ s : State, is_open (this s));
  if negb o then throw (JsError LOG_CLOSED_MESSAGE)
  else if startId <? 1 then throw (JsError INVALID_SEQUENCE_ID_MESSAGE)
  else if JS.truthy finishId then
    txns ← gets (λ s : State, txns_of (this s));
    mret (JS.slice txns (startId - 1) finishId)
  else
    txns ← gets (λ s : State, txns_of (this s));
    mret (JS.slice txns (startId - 1) None).

End Shared.

(** ** The range of sequence ids, as the interface documents it *)

(** [id] lies in the inclusive range from [startId] to [finishId], or from
    [startId] onwards when there is no [finishId]. *)
Definition in_seq_range (startId : Z) (finishId : option Z) (id : Z) : bool :=
  (startId <=? id) &&
  match finishId with
  | None => true
  | Some f => id <=? f
  end.

(** The entries of [arr] whose sequence id satisfies [P], in id order, the
    first entry of [arr] having the id [id]. *)
Fixpoint select_ids {A} (P : Z → bool) (id : Z) (arr : list A) : list A :=
  match arr with
  | [] => []
  | x :: arr' =>
      if P id then x :: select_ids P (id + 1) arr'
      else select_ids P (id + 1) arr'
  end.

(** Sequence ids start with 1. *)
Definition entries_in_range {A} (arr : list A) (startId : Z) (finishId : option Z)
  : list A :=
  select_ids (in_seq_range startId finishId) 1 arr.

(** The sequence ids of a collection of [n] entries that lie in the range,
    in ascending order. *)
Definition ids_in_range (n : nat) (startId : Z) (finishId : option Z) : list Z :=
  entries_in_range (seqZ 1 (Z.of_nat n)) startId finishId.

(** ** Outcomes of a call *)

(** The call throws [new Error(message)] and writes nothing. *)
Definition fails_with {St A} (m : M St A) (message : string) (s : St) : Prop :=
  m s = (Throw (JsError message), s).

(** The call returns [a] and writes nothing. *)
Definition returns {St A} (m : M St A) (a : A) (s : St) : Prop :=
  m s = (Ok a, s).


(** ** A concrete log, for examples *)

Module Example.

Definition clock (n : nat) : Z := 10 * Z.of_nat n.

Definition Batched_State := Sys (Batched.Log Z string (list string)) Z string (list string).
Definition Simple_State := Sys (Simple.Log string (list string)) Z string (list string).

Definition empty_runtime : Runtime Z string (list string) :=
  mkRuntime [] [] 0%nat [] [].

Definition new_batched : Batched_State :=
  mkSys (Batched.constructor None) empty_runtime.

Definition new_simple : Simple_State :=
  mkSys (Simple.constructor None) empty_runtime.

(** The visitor that writes down what it is given. *)
Definition record (data : string) (w : list string) : list string := w ++ [data].

(** [open(); append("foo"); append("bar")] *)
Definition batched_buffered_ops : list (@Batched.Op string (list string)) :=
  [Batched.OpOpen; Batched.OpAppend "foo"%string; Batched.OpAppend "bar"%string].
Definition batched_buffered : Batched_State :=
  Batched.run Z.sub clock batched_buffered_ops new_batched.

(** [open(); append("foo"); append("bar"); commit()] *)
Definition batched_committed_ops : list (@Batched.Op string (list string)) :=
  batched_buffered_ops ++ [Batched.OpCommit].
Definition batched_committed : Batched_State :=
  Batched.run Z.sub clock batched_committed_ops new_batched.

(** ... followed by [append("baz"); commit(); append("qux")]. *)
Definition batched_two_commits_ops : list (@Batched.Op string (list string)) :=
  batched_committed_ops ++
  [Batched.OpAppend "baz"%string; Batched.OpCommit; Batched.OpAppend "qux"%string].
Definition batched_two_commits : Batched_State :=
  Batched.run Z.sub clock batched_two_commits_ops new_batched.

(** ... followed by [close()]. *)
Definition batched_closed : Batched_State :=
  Batched.run Z.sub clock (batched_two_commits_ops ++ [Batched.OpClose]) new_batched.

(** [open(); append("foo"); append("bar")] on the simple log. *)
Definition simple_appended_ops : list (@Simple.Op string (list string)) :=
  [Simple.OpOpen; Simple.OpAppend "foo"%string; Simple.OpAppend "bar"%string].
Definition simple_appended : Simple_State :=
  Simple.run Z.sub clock simple_appended_ops new_simple.

Definition simple_closed : Simple_State :=
  Simple.run Z.sub clock (simple_appended_ops ++ [Simple.OpClose]) new_simple.

End Example.

(** ** States after a successful write, spelled out *)

Section BatchedPost.
Context {Time T W : Type}.
Variable now : nat → Time.

Local Abbreviation State := (Sys (Batched.Log Time T W) Time T W).

(** The commit object that [commit()] creates in the state [s]. *)
Definition commit_object (s : State) : Commit Time :=
  mkCommit (now (ticks (runtime s)))
           (seqZ (Z.of_nat (length (Batched.p_transactions (this s))) + 1)
                 (Z.of_nat (length (Batched.p_buffer (this s))))).

Definition after_commit (s : State) : State :=
  let l := this s in
  let r := runtime s in
  mkSys (Batched.mkLog (Batched.p_commits l ++ [length (commit_store r)])
                       (Batched.p_transactions l ++ Batched.p_buffer l)
                       []
                       (Batched.p_callbacks l)
                       (Batched.p_open l))
        (mkRuntime (txn_store r)
                   (commit_store r ++ [commit_object s])
                   (S (ticks r))
                   (timers r)
                   (match oncommit (Batched.p_callbacks l) with
                    | Some f => f (commit_object s) (world r)
                    | None => world r
                    end)).

Definition after_append (data : T) (s : State) : State :=
  let l := this s in
  let r := runtime s in
  mkSys (Batched.mkLog (Batched.p_commits l)
                       (Batched.p_transactions l)
                       (Batched.p_buffer l ++ [length (txn_store r)])
                       (Batched.p_callbacks l)
                       (Batched.p_open l))
        (mkRuntime (txn_store r ++ [mkTransaction (now (ticks r)) data])
                   (commit_store r)
                   (S (ticks r))
                   (timers r)
                   (match onappend (Batched.p_callbacks l) with
                    | Some f => f data (world r)
                    | None => world r
                    end)).

Definition after_clear (s : State) : State :=
  let l := this s in
  let r := runtime s in
  mkSys (Batched.mkLog [] [] [] (Batched.p_callbacks l) (Batched.p_open l))
        (mkRuntime (txn_store r) (commit_store r) (ticks r) (timers r)
                   (match onclear (Batched.p_callbacks l) with
                    | Some f => f (world r)
                    | None => world r
                    end)).

Definition after_set_open (b : bool) (hook : option (W → W)) (s : State) : State :=
  let l := this s in
  let r := runtime s in
  mkSys (Batched.mkLog (Batched.p_commits l) (Batched.p_transactions l)
                       (Batched.p_buffer l) (Batched.p_callbacks l) b)
        (mkRuntime (txn_store r) (commit_store r) (ticks r) (timers r)
                   (match hook with
                    | Some f => f (world r)
                    | None => world r
                    end)).

End BatchedPost.

(** ** Calls that only read the log *)

(** [s'] has the log object and the object stores of [s]; the clock, the
    timers and the caller's world may differ. *)
Definition same_log {L Time T W} (s s' : Sys L Time T W) : Prop :=
  this s' = this s
  ∧ txn_store (runtime s') = txn_store (runtime s)
  ∧ commit_store (runtime s') = commit_store (runtime s).

Definition keeps_log {L Time T W A} (m : M (Sys L Time T W) A) : Prop :=
  ∀ s, same_log s (snd (m s)).

Section SimplePost.
Context {Time T W : Type}.
Variable now : nat → Time.

Local Abbreviation State := (Sys (Simple.Log T W) Time T W).

Definition simple_after_append (data : T) (s : State) : State :=
  let l := this s in
  let r := runtime s in
  mkSys (Simple.mkLog (Simple.p_transactions l ++ [length (txn_store r)])
                      (Simple.p_callbacks l)
                      (Simple.p_open l))
        (mkRuntime (txn_store r ++ [mkTransaction (now (ticks r)) data])
                   (commit_store r)
                   (S (ticks r))
                   (timers r)
                   (match s_onappend (Simple.p_callbacks l) with
                    | Some f => f data (world r)
                    | None => world r
                    end)).

Definition simple_after_clear (s : State) : State :=
  let l := this s in
  let r := runtime s in
  mkSys (Simple.mkLog [] (Simple.p_callbacks l) (Simple.p_open l))
        (mkRuntime (txn_store r) (commit_store r) (ticks r) (timers r)
                   (match s_onclear (Simple.p_callbacks l) with
                    | Some f => f (world r)
                    | None => world r
                    end)).

Definition simple_after_set_open (b : bool) (hook : option (W → W)) (s : State) : State :=
  let l := this s in
  let r := runtime s in
  mkSys (Simple.mkLog (Simple.p_transactions l) (Simple.p_callbacks l) b)
        (mkRuntime (txn_store r) (commit_store r) (ticks r) (timers r)
                   (match hook with
                    | Some f => f (world r)
                    | None => world r
                    end)).

End SimplePost.

(** ** Statements shared by the two classes *)



(** A range query over the collection [arr], as the interface documents it:
    a start id below 1 is refused; otherwise the entries of the inclusive
    range are returned, nothing is written, a finish id at or beyond the
    length of the collection gives the same as no finish id, and a start id
    beyond the length gives the empty list. *)
Definition range_query {St} (query : Z → option Z → M St (list loc)) (arr : list loc)
    (s : St) (startId : Z) (finishId : option Z) : Prop :=
  (startId < 1 → fails_with (query startId finishId) INVALID_SEQUENCE_ID_MESSAGE s)
  ∧ (1 ≤ startId →
       returns (query startId finishId) (entries_in_range arr startId finishId) s
       ∧ (∀ f, finishId = Some f → Z.of_nat (length arr) ≤ f →
            entries_in_range arr startId finishId = entries_in_range arr startId None)
       ∧ (Z.of_nat (length arr) < startId →
            entries_in_range arr startId finishId = [])).

(** ** Further invariants of the batched log *)

Section BatchedPartition.
Context {Time T W : Type}.

Local Abbreviation State := (Sys (Batched.Log Time T W) Time T W).

(** [objs] are the [Commit] objects behind [#commits], in order. *)
Definition commits_of (s : State) (objs : list (Commit Time)) : Prop :=
  Forall2 (λ c obj, commit_store (runtime s) !! c = Some obj)
          (Batched.p_commits (this s)) objs.

(** The id lists of the commits, one after the other, are the ids of the
    committed transactions, each once and in order; no commit is empty. *)
Definition partitioned (s : State) : Prop :=
  ∃ objs, commits_of s objs
        ∧ concat (commit_transactions <$> objs)
          = seqZ 1 (Z.of_nat (length (Batched.p_transactions (this s))))
        ∧ Forall (λ obj, commit_transactions obj ≠ []) objs.

End BatchedPartition.

(** ** The timers of a timed replay *)

Section TimedDelays.
Context {Time T : Type}.
Variable tsub : Time → Time → Time.
Variable now : nat → Time.


End TimedDelays.

(** ** Clock readings *)

(** The call [m] never turns the clock back. *)
Definition ticks_grow {L Time T W A} (m : M (Sys L Time T W) A) : Prop :=
  ∀ s, (ticks (runtime s) ≤ ticks (runtime (snd (m s))))%nat.

(** The records behind [arr] carry, in order, strictly later and later
    readings of the clock [now], all of them among the first [tk]. *)
Definition stamped {Time T} (now : nat → Time) (ts : list (Transaction Time T))
    (tk : nat) (arr : list loc) : Prop :=
  ∃ ks : list nat,
    Forall2 (λ l k, ∃ t, ts !! l = Some t ∧ txn_time t = now k) arr ks
    ∧ (∀ i j ki kj, (i < j)%nat → ks !! i = Some ki → ks !! j = Some kj → (ki < kj)%nat)
    ∧ Forall (λ k, (k < tk)%nat) ks.

(** * Properties *)

(** ** JavaScript arrays *)

Lemma imap_sequence_ids {A} (n : Z) (arr : list A) :
  imap (λ i _, n + Z.of_nat i + 1) arr = seqZ (n + 1) (Z.of_nat (length arr)).
Proof.
  rewrite (imap_seq_0 arr (λ i, n + Z.of_nat i + 1)).
  unfold seqZ. rewrite Nat2Z.id. apply list_fmap_ext.
  intros i x _. lia.
Qed.

Lemma index_of_nat {A} (arr : list A) (i : nat) :
  JS.index arr (Z.of_nat i) = arr !! i.
Proof.
  unfold JS.index. destruct (Z.ltb_spec (Z.of_nat i) 0); [lia|].
  by rewrite Nat2Z.id.
Qed.

Lemma index_nonneg {A} (arr : list A) (i : Z) :
  0 ≤ i → JS.index arr i = arr !! Z.to_nat i.
Proof.
  intros Hi. unfold JS.index. by destruct (Z.ltb_spec i 0); [lia|].
Qed.

Lemma slice_from {A} (arr : list A) (startId : Z) :
  1 ≤ startId →
  JS.slice arr (startId - 1) None = drop (Z.to_nat (startId - 1)) arr.
Proof.
  intros Hs. unfold JS.slice, JS.clamp.
  destruct (Z.ltb_spec (startId - 1) 0); [lia|].
  destruct (Z.le_gt_cases (startId - 1) (Z.of_nat (length arr))).
  - rewrite Z.min_l by lia. apply take_ge. rewrite length_drop. lia.
  - rewrite Z.min_r by lia. rewrite Nat2Z.id, drop_all.
    rewrite drop_ge by lia. by rewrite take_nil.
Qed.

Lemma slice_from_to {A} (arr : list A) (startId finishId : Z) :
  1 ≤ startId → 0 ≤ finishId →
  JS.slice arr (startId - 1) (Some finishId)
  = take (Z.to_nat (finishId - (startId - 1))) (drop (Z.to_nat (startId - 1)) arr).
Proof.
  intros Hs Hf. unfold JS.slice, JS.clamp.
  destruct (Z.ltb_spec (startId - 1) 0); [lia|].
  destruct (Z.ltb_spec finishId 0); [lia|].
  destruct (Z.le_gt_cases (startId - 1) (Z.of_nat (length arr))).
  - rewrite (Z.min_l (startId - 1)) by lia.
    destruct (Z.le_gt_cases finishId (Z.of_nat (length arr))).
    + by rewrite Z.min_l by lia.
    + rewrite Z.min_r by lia. rewrite !take_ge; [done| |]; rewrite length_drop; lia.
  - rewrite (Z.min_r (startId - 1)) by lia. rewrite Nat2Z.id, drop_all.
    rewrite drop_ge by lia. by rewrite !take_nil.
Qed.

Lemma slice_elem_of {A} (arr : list A) start end_ x :
  x ∈ JS.slice arr start end_ → x ∈ arr.
Proof.
  unfold JS.slice. intros Hx.
  apply elem_of_take in Hx as (i & Hx & _).
  rewrite lookup_drop in Hx. by eapply list_elem_of_lookup_2.
Qed.

Lemma indexOf_from_found (arr : list nat) (x : nat) (i : Z) :
  x ∈ arr → i ≤ JS.indexOf_from arr x i.
Proof.
  revert i. induction arr as [|y arr IH]; intros i Hx; [by apply elem_of_nil in Hx|].
  simpl. destruct (decide (y = x)) as [|Hne]; [lia|].
  apply elem_of_cons in Hx as [->|Hx]; [done|].
  specialize (IH (i + 1) Hx). lia.
Qed.

Lemma indexOf_from_lookup (arr : list nat) (x : nat) (k : nat) (i : Z) :
  NoDup arr → arr !! k = Some x → JS.indexOf_from arr x i = i + Z.of_nat k.
Proof.
  revert k i. induction arr as [|y arr IH]; intros k i Hnd Hk; [done|].
  apply NoDup_cons in Hnd as [Hy Hnd]. simpl.
  destruct k as [|k]; simpl in Hk.
  - injection Hk as ->. rewrite decide_True by done. lia.
  - rewrite decide_False.
    + rewrite (IH k (i + 1)) by done. lia.
    + intros ->. apply Hy. by eapply list_elem_of_lookup_2.
Qed.

Lemma indexOf_lookup (arr : list nat) (x : nat) (k : nat) :
  NoDup arr → arr !! k = Some x → JS.indexOf arr x = Z.of_nat k.
Proof. intros. unfold JS.indexOf. by rewrite (indexOf_from_lookup arr x k 0). Qed.

(** ** Ranges of sequence ids *)

Lemma select_ids_upto {A} (lo hi base : Z) (arr : list A) :
  lo ≤ base →
  select_ids (in_seq_range lo (Some hi)) base arr = take (Z.to_nat (hi - base + 1)) arr.
Proof.
  revert base. induction arr as [|x arr IH]; intros base Hb; simpl.
  { by rewrite take_nil. }
  unfold in_seq_range at 1.
  destruct (Z.leb_spec lo base); [|lia]. simpl.
  rewrite IH by lia.
  destruct (Z.leb_spec base hi).
  - replace (Z.to_nat (hi - base + 1)) with (S (Z.to_nat (hi - (base + 1) + 1))) by lia.
    done.
  - replace (Z.to_nat (hi - base + 1)) with 0%nat by lia.
    by replace (Z.to_nat (hi - (base + 1) + 1)) with 0%nat by lia.
Qed.

Lemma select_ids_from_to {A} (lo hi base : Z) (arr : list A) :
  base ≤ lo →
  select_ids (in_seq_range lo (Some hi)) base arr
  = take (Z.to_nat (hi - lo + 1)) (drop (Z.to_nat (lo - base)) arr).
Proof.
  revert base. induction arr as [|x arr IH]; intros base Hb.
  { by rewrite drop_nil, take_nil. }
  destruct (decide (base = lo)) as [->|Hne].
  - rewrite select_ids_upto by lia. by rewrite Z.sub_diag.
  - simpl. unfold in_seq_range at 1.
    destruct (Z.leb_spec lo base); [lia|]. simpl.
    rewrite IH by lia.
    by replace (Z.to_nat (lo - base)) with (S (Z.to_nat (lo - (base + 1)))) by lia.
Qed.

Lemma select_ids_all {A} (lo base : Z) (arr : list A) :
  lo ≤ base → select_ids (in_seq_range lo None) base arr = arr.
Proof.
  revert base. induction arr as [|x arr IH]; intros base Hb; simpl; [done|].
  unfold in_seq_range at 1.
  destruct (Z.leb_spec lo base); [|lia]. simpl. by rewrite IH by lia.
Qed.

Lemma select_ids_from {A} (lo base : Z) (arr : list A) :
  base ≤ lo →
  select_ids (in_seq_range lo None) base arr = drop (Z.to_nat (lo - base)) arr.
Proof.
  revert base. induction arr as [|x arr IH]; intros base Hb.
  { by rewrite drop_nil. }
  destruct (decide (base = lo)) as [->|Hne].
  - rewrite select_ids_all by lia. by rewrite Z.sub_diag.
  - simpl. unfold in_seq_range at 1.
    destruct (Z.leb_spec lo base); [lia|]. simpl.
    rewrite IH by lia.
    by replace (Z.to_nat (lo - base)) with (S (Z.to_nat (lo - (base + 1)))) by lia.
Qed.

(** For a start id of at least 1 and a finish id that is absent or at least
    1, [slice(startId - 1, finishId)] is the inclusive range of the
    interface. *)
Lemma slice_entries_in_range {A} (arr : list A) (startId : Z) (finishId : option Z) :
  1 ≤ startId →
  (∀ f, finishId = Some f → 1 ≤ f) →
  JS.slice arr (startId - 1) finishId = entries_in_range arr startId finishId.
Proof.
  intros Hs Hf. unfold entries_in_range. destruct finishId as [f|].
  - specialize (Hf f eq_refl).
    rewrite slice_from_to, select_ids_from_to by lia.
    by replace (f - (startId - 1)) with (f - startId + 1) by lia.
  - by rewrite slice_from, select_ids_from by lia.
Qed.

(** The entries selected from [arr] sit at the selected ids. *)
Lemma select_ids_positions {A} (P : Z → bool) (pre arr : list A) :
  let base := Z.of_nat (length pre) + 1 in
  Forall2 (λ id x, 1 ≤ id ∧ (pre ++ arr) !! Z.to_nat (id - 1) = Some x)
          (select_ids P base (seqZ base (Z.of_nat (length arr))))
          (select_ids P base arr).
Proof.
  revert pre. induction arr as [|x arr IH]; intros pre base.
  { simpl. constructor. }
  cbn [length]. rewrite seqZ_cons by lia. cbn [select_ids].
  specialize (IH (pre ++ [x])). rewrite length_app in IH. simpl in IH.
  replace (Z.of_nat (length pre + 1) + 1) with (base + 1) in IH by lia.
  rewrite <- app_assoc in IH. simpl in IH.
  replace (Z.succ base) with (base + 1) by lia.
  replace (Z.pred (Z.of_nat (S (length arr)))) with (Z.of_nat (length arr)) by lia.
  destruct (P base); [|done].
  constructor; [|done].
  split; [lia|].
  replace (Z.to_nat (base - 1)) with (length pre) by lia.
  by rewrite lookup_app_r, Nat.sub_diag by lia.
Qed.

Lemma entries_at_ids_in_range {A} (arr : list A) (startId : Z) (finishId : option Z) :
  Forall2 (λ id x, 1 ≤ id ∧ arr !! Z.to_nat (id - 1) = Some x)
          (ids_in_range (length arr) startId finishId)
          (entries_in_range arr startId finishId).
Proof. apply (select_ids_positions (in_seq_range startId finishId) [] arr). Qed.

(** ** Batched log: single calls *)

Ltac unfold_M :=
  unfold returns, fails_with, mbind, M_bind, bind, mret, M_ret, ret, throw,
    gets, modify, call_opt, call, performance_now, setTimeout,
    new_Commit, new_Transaction, with_this, with_runtime in *.

Section BatchedCalls.
Context {Time T W : Type}.
Variable tsub : Time → Time → Time.
Variable now : nat → Time.

Local Abbreviation State := (Sys (Batched.Log Time T W) Time T W).

Lemma commit_open_nonempty (s : State) :
  Batched.p_open (this s) = true →
  Batched.p_buffer (this s) ≠ [] →
  Batched.commit now s = (Ok tt, after_commit now s).
Proof.
  intros Hopen Hbuf.
  destruct s as [[cs txns buf cbs o] [ts cms tk tm w]]; simpl in *. subst o.
  unfold Batched.commit, Batched.field, Batched.set_commits,
    Batched.set_transactions, Batched.set_buffer, after_commit, commit_object.
  unfold_M. cbn [this runtime Batched.p_open Batched.p_buffer negb
    Batched.p_commits Batched.p_transactions Batched.p_callbacks
    txn_store commit_store ticks timers world].
  destruct (Z.eqb_spec (Z.of_nat (length buf)) 0) as [Hz|_].
  { destruct buf; [done|simpl in Hz; lia]. }
  rewrite imap_sequence_ids.
  simpl. destruct (oncommit cbs); reflexivity.
Qed.

Lemma append_open (data : T) (s : State) :
  Batched.p_open (this s) = true →
  Batched.append now data s = (Ok tt, after_append now data s).
Proof.
  intros Hopen.
  destruct s as [[cs txns buf cbs o] [ts cms tk tm w]]; simpl in *. subst o.
  unfold Batched.append, Batched.field, Batched.set_buffer, after_append.
  unfold_M. simpl. destruct (onappend cbs); reflexivity.
Qed.

Lemma clear_closed (s : State) :
  Batched.p_open (this s) = false →
  Batched.clear s = (Ok tt, after_clear s).
Proof.
  intros Hopen.
  destruct s as [[cs txns buf cbs o] [ts cms tk tm w]]; simpl in *. subst o.
  unfold Batched.clear, Batched.field, Batched.set_commits,
    Batched.set_transactions, Batched.set_buffer, after_clear.
  unfold_M. simpl. destruct (onclear cbs); reflexivity.
Qed.

Lemma open_closed (s : State) :
  Batched.p_open (this s) = false →
  Batched.open s
  = (Ok tt, after_set_open true (onopen (Batched.p_callbacks (this s))) s).
Proof.
  intros Hopen.
  destruct s as [[cs txns buf cbs o] [ts cms tk tm w]]; simpl in *. subst o.
  unfold Batched.open, Batched.field, Batched.set_open, after_set_open.
  unfold_M. simpl. destruct (onopen cbs); reflexivity.
Qed.

Lemma close_open (s : State) :
  Batched.p_open (this s) = true →
  Batched.close s
  = (Ok tt, after_set_open false (onclose (Batched.p_callbacks (this s))) s).
Proof.
  intros Hopen.
  destruct s as [[cs txns buf cbs o] [ts cms tk tm w]]; simpl in *. subst o.
  unfold Batched.close, Batched.field, Batched.set_open, after_set_open.
  unfold_M. simpl. destruct (onclose cbs); reflexivity.
Qed.

Lemma open_open (s : State) :
  Batched.p_open (this s) = true →
  fails_with Batched.open LOG_ALREADY_OPEN_MESSAGE s.
Proof.
  intros Hopen. unfold Batched.open, Batched.field. unfold_M.
  by rewrite Hopen.
Qed.

Lemma close_closed (s : State) :
  Batched.p_open (this s) = false →
  fails_with Batched.close LOG_ALREADY_CLOSED_MESSAGE s.
Proof.
  intros Hopen. unfold Batched.close, Batched.field. unfold_M.
  by rewrite Hopen.
Qed.

Lemma clear_open (s : State) :
  Batched.p_open (this s) = true →
  fails_with Batched.clear LOG_OPEN_CANNOT_CLEAR_MESSAGE s.
Proof.
  intros Hopen. unfold Batched.clear, Batched.field. unfold_M.
  by rewrite Hopen.
Qed.

Lemma count_commits_open (s : State) :
  Batched.p_open (this s) = true →
  returns Batched.countCommits (Z.of_nat (length (Batched.p_commits (this s)))) s.
Proof.
  intros Hopen. unfold Batched.countCommits, Batched.field. unfold_M.
  by rewrite Hopen.
Qed.

Lemma count_transactions_open (s : State) :
  Batched.p_open (this s) = true →
  returns Batched.countTransactions
          (Z.of_nat (length (Batched.p_transactions (this s)))) s.
Proof.
  intros Hopen. unfold Batched.countTransactions, Batched.field. unfold_M.
  by rewrite Hopen.
Qed.

(** Every guarded method of a closed log throws [LOG_CLOSED_MESSAGE] before
    it writes anything. *)
Lemma batched_closed_rejects (s : State) :
  Batched.p_open (this s) = false →
  (∀ data, fails_with (Batched.append now data) LOG_CLOSED_MESSAGE s)
  ∧ fails_with (Batched.commit now) LOG_CLOSED_MESSAGE s
  ∧ fails_with Batched.countCommits LOG_CLOSED_MESSAGE s
  ∧ fails_with Batched.countTransactions LOG_CLOSED_MESSAGE s
  ∧ (∀ callback simulateTime,
       fails_with (Batched.replay tsub now callback simulateTime) LOG_CLOSED_MESSAGE s)
  ∧ (∀ startId finishId,
       fails_with (Batched.getSeqRangeTransactions startId finishId) LOG_CLOSED_MESSAGE s)
  ∧ (∀ startId finishId,
       fails_with (Batched.getSeqRangeCommits startId finishId) LOG_CLOSED_MESSAGE s).
Proof.
  intros Hopen.
  unfold Batched.append, Batched.commit, Batched.countCommits,
    Batched.countTransactions, Batched.replay, Batched.getSeqRangeTransactions,
    Batched.getSeqRangeCommits, Batched.field.
  unfold_M. rewrite Hopen. simpl. repeat split; reflexivity.
Qed.

Lemma commit_open_empty (s : State) :
  Batched.p_open (this s) = true →
  Batched.p_buffer (this s) = [] →
  fails_with (Batched.commit now) BUFFER_EMPTY_CANNOT_COMMIT_MESSAGE s.
Proof.
  intros Hopen Hbuf. unfold Batched.commit, Batched.field. unfold_M.
  rewrite Hopen. simpl. by rewrite Hbuf.
Qed.

(** C1.  On an open log with a non-empty buffer, [commit()] returns; after
    it [countCommits()] is one more than before, [countTransactions()] has
    grown by the length of the buffer, the buffer is empty, and the commit
    object pushed last on [#commits] lists exactly the ids [N+1 .. N+B],
    the id [N+1+i] being the position at which the [i]-th buffered
    transaction is now committed. *)
Theorem commit_moves_buffer (s : State) :
  Batched.p_open (this s) = true →
  Batched.p_buffer (this s) ≠ [] →
  let C := Z.of_nat (length (Batched.p_commits (this s))) in
  let N := Z.of_nat (length (Batched.p_transactions (this s))) in
  let B := Z.of_nat (length (Batched.p_buffer (this s))) in
  ∃ s' c obj,
    Batched.commit now s = (Ok tt, s')
    ∧ returns Batched.countCommits (C + 1) s'
    ∧ returns Batched.countTransactions (N + B) s'
    ∧ Batched.p_buffer (this s') = []
    ∧ Batched.p_commits (this s') = Batched.p_commits (this s) ++ [c]
    ∧ commit_store (runtime s') !! c = Some obj
    ∧ commit_transactions obj = seqZ (N + 1) B
    ∧ Batched.p_transactions (this s')
      = Batched.p_transactions (this s) ++ Batched.p_buffer (this s)
    ∧ ∀ (i : nat) l, Batched.p_buffer (this s) !! i = Some l →
        JS.index (Batched.p_transactions (this s')) (N + 1 + Z.of_nat i - 1) = Some l.
Proof.
  intros Hopen Hbuf C N B.
  exists (after_commit now s), (length (commit_store (runtime s))), (commit_object now s).
  split; [by apply commit_open_nonempty|].
  assert (Hopen' : Batched.p_open (this (after_commit now s)) = true) by done.
  split.
  { pose proof (count_commits_open _ Hopen') as H. simpl in H.
    rewrite length_app in H. simpl in H.
    by replace (C + 1) with (Z.of_nat (length (Batched.p_commits (this s)) + 1)) by lia. }
  split.
  { pose proof (count_transactions_open _ Hopen') as H. simpl in H.
    rewrite length_app in H.
    by replace (N + B) with
      (Z.of_nat (length (Batched.p_transactions (this s))
                 + length (Batched.p_buffer (this s)))) by lia. }
  repeat split; try reflexivity.
  - simpl. by rewrite lookup_app_r, Nat.sub_diag by lia.
  - intros i l Hi. simpl.
    rewrite index_nonneg by lia.
    replace (Z.to_nat (N + 1 + Z.of_nat i - 1))
      with (length (Batched.p_transactions (this s)) + i)%nat by lia.
    by rewrite lookup_app_r, Nat.add_comm, Nat.add_sub by lia.
Qed.

(** C7.  On an open log with an empty buffer, [commit()] throws
    [BUFFER_EMPTY_CANNOT_COMMIT_MESSAGE] and the state after the call is the
    state before it: the commits, the transactions, the buffer, the open
    flag and the runtime are unchanged. *)
Theorem commit_empty_buffer (s : State) :
  Batched.p_open (this s) = true →
  Batched.p_buffer (this s) = [] →
  fails_with (Batched.commit now) BUFFER_EMPTY_CANNOT_COMMIT_MESSAGE s
  ∧ let s' := snd (Batched.commit now s) in
    Batched.p_commits (this s') = Batched.p_commits (this s)
    ∧ Batched.p_transactions (this s') = Batched.p_transactions (this s)
    ∧ Batched.p_buffer (this s') = Batched.p_buffer (this s)
    ∧ Batched.p_open (this s') = Batched.p_open (this s)
    ∧ runtime s' = runtime s.
Proof.
  intros Hopen Hbuf.
  pose proof (commit_open_empty s Hopen Hbuf) as H.
  split; [done|]. unfold fails_with in H. by rewrite H.
Qed.

End BatchedCalls.

(** ** Calls that only read the log *)

(** The methods of the two classes are instances of the shared text. *)

Lemma batched_replay_shared {Time T W} tsub now callback simulateTime :
  @Batched.replay Time T W tsub now callback simulateTime =
  shared_replay tsub now Batched.p_open Batched.p_transactions callback simulateTime.
Proof. reflexivity. Qed.

Lemma simple_replay_shared {Time T W} tsub now callback simulateTime :
  @Simple.replay Time T W tsub now callback simulateTime =
  shared_replay tsub now Simple.p_open Simple.p_transactions callback simulateTime.
Proof. reflexivity. Qed.

Lemma batched_range_shared {Time T W} startId finishId :
  @Batched.getSeqRangeTransactions Time T W startId finishId =
  shared_range Batched.p_open Batched.p_transactions startId finishId.
Proof. reflexivity. Qed.

Lemma simple_range_shared {Time T W} startId finishId :
  @Simple.getSeqRangeTransactions Time T W startId finishId =
  shared_range Simple.p_open Simple.p_transactions startId finishId.
Proof. reflexivity. Qed.

Section KeepsLog.
Context {L Time T W : Type}.
Variable now : nat → Time.

Local Abbreviation State := (Sys L Time T W).

Lemma same_log_refl (s : State) : same_log s s.
Proof. done. Qed.

Lemma same_log_trans (s1 s2 s3 : State) :
  same_log s1 s2 → same_log s2 s3 → same_log s1 s3.
Proof. unfold same_log. intros (?&?&?) (?&?&?). repeat split; congruence. Qed.

Lemma keeps_log_ret {A} (a : A) : keeps_log (mret a : M State A).
Proof. intros s. apply same_log_refl. Qed.

Lemma keeps_log_throw {A} (e : Error) : keeps_log (throw e : M State A).
Proof. intros s. apply same_log_refl. Qed.

Lemma keeps_log_gets {A} (f : State → A) : keeps_log (gets f).
Proof. intros s. apply same_log_refl. Qed.

Lemma keeps_log_bind {A B} (m : M State A) (k : A → M State B) :
  keeps_log m → (∀ a, keeps_log (k a)) → keeps_log (m ≫= k).
Proof.
  intros Hm Hk s. unfold mbind, M_bind, bind.
  specialize (Hm s). destruct (m s) as [[a|e] s']; simpl in *; [|done].
  eapply same_log_trans; [done|apply Hk].
Qed.

Lemma keeps_log_performance_now : keeps_log (performance_now now : M State Time).
Proof. intros s. done. Qed.

Lemma keeps_log_setTimeout (delay : Time) : keeps_log (setTimeout delay : M State unit).
Proof. intros s. done. Qed.

Lemma keeps_log_call (f : W → W) : keeps_log (call f : M State unit).
Proof. intros s. done. Qed.

Lemma keeps_log_read_Transaction (v : option loc) :
  keeps_log (read_Transaction v : M State (Transaction Time T)).
Proof.
  intros s. unfold read_Transaction.
  destruct (v ≫= _); apply same_log_refl.
Qed.

Lemma keeps_log_read_Commit (v : option loc) :
  keeps_log (read_Commit v : M State (Commit Time)).
Proof.
  intros s. unfold read_Commit.
  destruct (v ≫= _); apply same_log_refl.
Qed.

Lemma keeps_log_mapM {A B} (f : A → M State B) (arr : list A) :
  (∀ x, keeps_log (f x)) → keeps_log (mapM f arr).
Proof.
  intros Hf. induction arr as [|x arr IH]; simpl.
  - apply keeps_log_ret.
  - apply keeps_log_bind; [apply Hf|]. intros y.
    apply keeps_log_bind; [done|]. intros ys. apply keeps_log_ret.
Qed.

Lemma keeps_log_for_of {A} (arr : list A) (body : A → M State unit) :
  (∀ x, keeps_log (body x)) → keeps_log (for_of arr body).
Proof.
  intros Hbody. induction arr as [|x arr IH]; simpl.
  - apply keeps_log_ret.
  - apply keeps_log_bind; [apply Hbody|done].
Qed.

Lemma keeps_log_for_count (n i : nat) (body : nat → M State unit) :
  (∀ j, keeps_log (body j)) → keeps_log (for_count n i body).
Proof.
  intros Hbody. revert i. induction n as [|n IH]; intros i; simpl.
  - apply keeps_log_ret.
  - apply keeps_log_bind; [apply Hbody|done].
Qed.

End KeepsLog.

Create HintDb keeps.

#[local] Hint Resolve keeps_log_ret keeps_log_throw keeps_log_gets
  keeps_log_performance_now keeps_log_setTimeout keeps_log_call
  keeps_log_read_Transaction keeps_log_read_Commit : keeps.

Ltac keeps_log_step :=
  first
    [ apply keeps_log_bind; [|intros ?]
    | apply keeps_log_for_of; intros ?
    | apply keeps_log_for_count; intros ?
    | apply keeps_log_mapM; intros ?
    | solve [auto with keeps]
    | match goal with
      | |- keeps_log (match ?x with _ => _ end) => destruct x
      | |- keeps_log (if ?b then _ else _) => destruct b
      end ].

Section SharedKeepsLog.
Context {L Time T W : Type}.
Variable tsub : Time → Time → Time.
Variable now : nat → Time.
Variable is_open : L → bool.
Variable txns_of : L → list loc.

Lemma keeps_log_shared_replay (callback : T → W → W) simulateTime :
  keeps_log (shared_replay (W:=W) tsub now is_open txns_of callback simulateTime).
Proof.
  unfold shared_replay, timed_round, visit. repeat keeps_log_step.
Qed.

Lemma keeps_log_shared_range startId finishId :
  keeps_log (shared_range (Time:=Time) (T:=T) (W:=W) is_open txns_of startId finishId).
Proof.
  unfold shared_range. repeat keeps_log_step.
Qed.

End SharedKeepsLog.

(** ** Batched log: the invariant *)

Section BatchedInvariant.
Context {Time T W : Type}.
Variable tsub : Time → Time → Time.
Variable now : nat → Time.

Local Abbreviation State := (Sys (Batched.Log Time T W) Time T W).

Lemma contiguous_seqZ (a : Z) (n : nat) :
  Batched.contiguous (seqZ a (Z.of_nat n)) = true.
Proof.
  revert a. induction n as [|n IH]; intros a; [done|].
  rewrite seqZ_cons by lia.
  replace (Z.pred (Z.of_nat (S n))) with (Z.of_nat n) by lia.
  specialize (IH (Z.succ a)).
  destruct n as [|n]; [done|].
  rewrite seqZ_cons in IH |- * by lia.
  cbn [Batched.contiguous] in IH |- *. rewrite IH.
  destruct (Z.eqb_spec (Z.succ a) (a + 1)); [done|lia].
Qed.

Lemma within_Forall (n : Z) (ids : list Z) :
  Batched.within n ids = true ↔ Forall (λ id, 1 ≤ id ≤ n) ids.
Proof.
  unfold Batched.within. rewrite forallb_forall, Forall_forall.
  split; intros H id Hid.
  - apply list_elem_of_In, H in Hid. lia.
  - apply list_elem_of_In, H in Hid. lia.
Qed.

Lemma within_seqZ (n a len : Z) :
  1 ≤ a → a + len - 1 ≤ n → Batched.within n (seqZ a len) = true.
Proof.
  intros Ha Hn. apply within_Forall, Forall_forall.
  intros id Hid%elem_of_seqZ. lia.
Qed.

Lemma within_resolves {A} (arr : list A) (ids : list Z) :
  Batched.within (Z.of_nat (length arr)) ids = true →
  Forall (λ id, is_Some (JS.index arr (id - 1))) ids.
Proof.
  intros H%within_Forall. eapply Forall_impl; [done|].
  intros id Hid. simpl in Hid. rewrite index_nonneg by lia.
  apply lookup_lt_is_Some. lia.
Qed.

(** A commit stays well-formed when objects are allocated and
    transactions are pushed. *)
Lemma commit_ok_grows (s s' : State) (c : loc) :
  commit_store (runtime s) `prefix_of` commit_store (runtime s') →
  Batched.p_transactions (this s) `prefix_of` Batched.p_transactions (this s') →
  Batched.commit_ok s c → Batched.commit_ok s' c.
Proof.
  intros Hcs Htx (obj & Hobj & Hcont & Hin & _).
  exists obj. split; [by eapply prefix_lookup_Some|].
  split; [done|].
  assert (Batched.within (Z.of_nat (length (Batched.p_transactions (this s'))))
            (commit_transactions obj) = true) as Hin'.
  { apply within_Forall. apply within_Forall in Hin.
    eapply Forall_impl; [done|]. intros id Hid. simpl in Hid.
    apply prefix_length in Htx. lia. }
  split; [done|]. by apply within_resolves.
Qed.

Lemma commit_ids_ok_same (s s' : State) :
  Batched.p_commits (this s') = Batched.p_commits (this s) →
  Batched.p_transactions (this s') = Batched.p_transactions (this s) →
  commit_store (runtime s') = commit_store (runtime s) →
  Batched.commit_ids_ok s → Batched.commit_ids_ok s'.
Proof.
  unfold Batched.commit_ids_ok. intros -> Htx Hcs H.
  eapply Forall_impl; [done|]. intros c Hc.
  eapply commit_ok_grows; [| |done].
  - by rewrite Hcs.
  - by rewrite Htx.
Qed.

Lemma commit_ids_ok_after_commit (s : State) :
  Batched.commit_ids_ok s → Batched.commit_ids_ok (after_commit now s).
Proof.
  unfold Batched.commit_ids_ok. intros H. simpl.
  apply Forall_app. split.
  - eapply Forall_impl; [done|]. intros c Hc.
    eapply commit_ok_grows; [| |done]; simpl; by apply prefix_app_r.
  - apply Forall_singleton.
    exists (commit_object now s). simpl.
    split; [by rewrite lookup_app_r, Nat.sub_diag by lia|].
    split; [apply contiguous_seqZ|].
    assert (Batched.within
              (Z.of_nat (length (Batched.p_transactions (this s)
                                 ++ Batched.p_buffer (this s))))
              (seqZ (Z.of_nat (length (Batched.p_transactions (this s))) + 1)
                    (Z.of_nat (length (Batched.p_buffer (this s))))) = true) as Hin.
    { apply within_seqZ; [lia|]. rewrite length_app. lia. }
    split; [done|]. by apply within_resolves.
Qed.

Lemma keeps_log_getSeqRangeCommits startId finishId :
  keeps_log (Batched.getSeqRangeCommits (Time:=Time) (T:=T) (W:=W) startId finishId).
Proof.
  unfold Batched.getSeqRangeCommits, Batched.commit_info, Batched.field.
  repeat keeps_log_step.
Qed.

(** What a call can do to the state. *)
Lemma exec_shape (op : Batched.Op) (s : State) :
  same_log s (Batched.exec tsub now op s)
  ∨ (∃ b hook, Batched.exec tsub now op s = after_set_open b hook s)
  ∨ (Batched.exec tsub now op s = after_clear s)
  ∨ (∃ data, Batched.exec tsub now op s = after_append now data s)
  ∨ (Batched.exec tsub now op s = after_commit now s).
Proof.
  destruct op; simpl.
  - left. apply same_log_refl.
  - destruct (Batched.p_open (this s)) eqn:Ho.
    + left. rewrite (open_open s Ho). apply same_log_refl.
    + right; left. rewrite (open_closed s Ho). eauto.
  - destruct (Batched.p_open (this s)) eqn:Ho.
    + right; left. rewrite (close_open s Ho). eauto.
    + left. rewrite (close_closed s Ho). apply same_log_refl.
  - destruct (Batched.p_open (this s)) eqn:Ho.
    + left. rewrite (clear_open s Ho). apply same_log_refl.
    + right; right; left. by rewrite (clear_closed s Ho).
  - destruct (Batched.p_open (this s)) eqn:Ho.
    + destruct (decide (Batched.p_buffer (this s) = [])) as [Hb|Hb].
      * left. rewrite (commit_open_empty now s Ho Hb). apply same_log_refl.
      * do 4 right. by rewrite (commit_open_nonempty now s Ho Hb).
    + left. destruct (batched_closed_rejects tsub now s Ho) as (_ & -> & _).
      apply same_log_refl.
  - destruct (Batched.p_open (this s)) eqn:Ho.
    + left. rewrite (count_commits_open s Ho). apply same_log_refl.
    + left. destruct (batched_closed_rejects tsub now s Ho) as (_ & _ & -> & _).
      apply same_log_refl.
  - destruct (Batched.p_open (this s)) eqn:Ho.
    + left. rewrite (count_transactions_open s Ho). apply same_log_refl.
    + left. destruct (batched_closed_rejects tsub now s Ho) as (_ & _ & _ & -> & _).
      apply same_log_refl.
  - destruct (Batched.p_open (this s)) eqn:Ho.
    + do 3 right; left. exists data. by rewrite (append_open now data s Ho).
    + left. destruct (batched_closed_rejects tsub now s Ho) as (-> & _).
      apply same_log_refl.
  - left. rewrite batched_replay_shared. apply keeps_log_shared_replay.
  - left. apply keeps_log_getSeqRangeCommits.
  - left. rewrite batched_range_shared. apply keeps_log_shared_range.
Qed.

Lemma commit_ids_ok_exec (op : Batched.Op) (s : State) :
  Batched.commit_ids_ok s → Batched.commit_ids_ok (Batched.exec tsub now op s).
Proof.
  intros H.
  destruct (exec_shape op s) as [(Ht & _ & Hc)|[(b & hook & ->)|[->|[[data ->]| ->]]]].
  - eapply commit_ids_ok_same; [| | |done]; by rewrite ?Ht, ?Hc.
  - by eapply commit_ids_ok_same.
  - constructor.
  - by eapply commit_ids_ok_same.
  - by apply commit_ids_ok_after_commit.
Qed.

Lemma commit_ids_ok_initial (s : State) :
  Batched.initial s → Batched.commit_ids_ok s.
Proof. intros [cbs H]. unfold Batched.commit_ids_ok. rewrite H. constructor. Qed.

Lemma records_ok_grows (s s' : State) :
  txn_store (runtime s) `prefix_of` txn_store (runtime s') →
  Forall (λ l, is_Some (txn_store (runtime s) !! l))
         (Batched.p_transactions (this s') ++ Batched.p_buffer (this s')) →
  Batched.records_ok s'.
Proof.
  intros Hpre H. unfold Batched.records_ok.
  eapply Forall_impl; [done|]. intros l [txn Hl].
  exists txn. by eapply prefix_lookup_Some.
Qed.

Lemma wf_exec (op : Batched.Op) (s : State) :
  Batched.wf s → Batched.wf (Batched.exec tsub now op s).
Proof.
  intros (Hids & Hnd & Hrec).
  split; [by apply commit_ids_ok_exec|].
  unfold Batched.records_ok in Hrec.
  destruct (exec_shape op s) as [(Ht & Hts & Hc)|[(b & hook & ->)|[->|[[data ->]| ->]]]].
  - split; [by rewrite Ht|].
    apply (records_ok_grows s); [by rewrite Hts|by rewrite Ht].
  - split; [done|]. by apply (records_ok_grows s).
  - split; [apply NoDup_nil_2|]. constructor.
  - split; [done|]. unfold Batched.records_ok. simpl.
    rewrite app_assoc. apply Forall_app. split.
    + eapply Forall_impl; [done|]. intros l [txn Hl].
      exists txn. by apply lookup_app_l_Some.
    + apply Forall_singleton. rewrite lookup_app_r, Nat.sub_diag by lia. by eexists.
  - split.
    + simpl. apply NoDup_app. split; [done|]. split; [|apply NoDup_singleton].
      intros c Hc Hc'%list_elem_of_singleton.
      unfold Batched.commit_ids_ok in Hids. rewrite Forall_forall in Hids.
      destruct (Hids c Hc) as (obj & Hobj%lookup_lt_Some & _). lia.
    + apply (records_ok_grows s); [done|]. simpl. by rewrite app_nil_r.
Qed.

(** No call removes or rewrites a record: the stores only grow. *)
Lemma exec_keeps_records (op : Batched.Op) (s : State) :
  txn_store (runtime s) `prefix_of` txn_store (runtime (Batched.exec tsub now op s))
  ∧ commit_store (runtime s)
    `prefix_of` commit_store (runtime (Batched.exec tsub now op s)).
Proof.
  destruct (exec_shape op s) as [(_ & Hts & Hcs)|[(b & hook & ->)|[->|[[data ->]| ->]]]].
  - by rewrite Hts, Hcs.
  - done.
  - done.
  - split; [by apply prefix_app_r|done].
  - split; [done|by apply prefix_app_r].
Qed.

Lemma wf_initial (s : State) : Batched.initial s → Batched.wf s.
Proof.
  intros Hi. split; [by apply commit_ids_ok_initial|].
  destruct Hi as [cbs H]. unfold Batched.records_ok. rewrite H. simpl.
  split; constructor.
Qed.

Lemma reachable_wf (s : State) : Batched.reachable tsub now s → Batched.wf s.
Proof.
  induction 1 as [s Hi|s op _ IH]; [by apply wf_initial|by apply wf_exec].
Qed.

Lemma reachable_run (ops : list Batched.Op) (s : State) :
  Batched.reachable tsub now s →
  Batched.reachable tsub now (Batched.run tsub now ops s).
Proof.
  revert s. induction ops as [|op ops IH]; intros s Hs; [done|].
  simpl. apply IH. by constructor.
Qed.

End BatchedInvariant.

(** ** Batched log: [getSeqRangeCommits] *)

Lemma mapM_Forall2 {St A B I} (f : A → M St B) (R : I → B → Prop)
    (ids : list I) (arr : list A) (s : St) :
  Forall2 (λ id x, ∃ y, f x s = (Ok y, s) ∧ R id y) ids arr →
  ∃ ys, mapM f arr s = (Ok ys, s) ∧ Forall2 R ids ys.
Proof.
  induction 1 as [|id x ids arr (y & Hy & HR) _ (ys & Hys & HRs)]; simpl.
  - exists []. split; [done|constructor].
  - exists (y :: ys). unfold mbind, M_bind, bind. rewrite Hy, Hys.
    split; [done|by constructor].
Qed.

Lemma mapM_Forall {St A B} (f : A → M St B) (arr : list A) (s : St) :
  Forall (λ x, ∃ y, f x s = (Ok y, s)) arr →
  ∃ ys, mapM f arr s = (Ok ys, s).
Proof.
  intros H.
  destruct (mapM_Forall2 f (λ _ _, True) arr arr s) as (ys & Hys & _); [|by eauto].
  induction H as [|x arr [y Hy] _ IH]; constructor; [by eauto|done].
Qed.

Section BatchedRangeCommits.
Context {Time T W : Type}.
Variable tsub : Time → Time → Time.
Variable now : nat → Time.

Local Abbreviation State := (Sys (Batched.Log Time T W) Time T W).

(** What the function mapped over the slice returns for the commit at
    position [k], when no other position holds the same reference. *)
Lemma commit_info_at (s : State) (c : loc) (k : nat) (obj : Commit Time) :
  NoDup (Batched.p_commits (this s)) →
  Batched.p_commits (this s) !! k = Some c →
  commit_store (runtime s) !! c = Some obj →
  Batched.commit_info c s
  = (Ok (mkCommitInfo (Z.of_nat k + 1) (commit_time obj)
           ((λ tid, JS.index (Batched.p_transactions (this s)) (tid - 1))
              <$> commit_transactions obj)), s).
Proof.
  intros Hnd Hk Hobj.
  unfold Batched.commit_info, Batched.field, read_Commit. unfold_M.
  rewrite (indexOf_lookup _ c k) by done.
  destruct (Z.eqb_spec (Z.of_nat k + 1) 0); [lia|].
  simpl. by rewrite Hobj.
Qed.

(** In a well-formed state the function mapped over the slice finds the
    position of the commit it is given and resolves its transactions. *)
Lemma commit_info_describes (s : State) (c : loc) (k : nat) :
  Batched.wf s →
  Batched.p_commits (this s) !! k = Some c →
  ∃ info, Batched.commit_info c s = (Ok info, s)
        ∧ Batched.describes s (Z.of_nat k + 1) info.
Proof.
  intros (Hids & Hnd & Hrec) Hk.
  unfold Batched.commit_ids_ok in Hids. rewrite Forall_forall in Hids.
  destruct (Hids c) as (obj & Hobj & _ & Hin & _); [by eapply list_elem_of_lookup_2|].
  eexists. split.
  - unfold Batched.commit_info, Batched.field, read_Commit. unfold_M.
    rewrite (indexOf_lookup _ c k) by done.
    destruct (Z.eqb_spec (Z.of_nat k + 1) 0); [lia|].
    simpl. rewrite Hobj. reflexivity.
  - split; [done|]. exists c, obj. cbn [ci_time ci_transactions].
    replace (Z.to_nat (Z.of_nat k + 1 - 1)) with k by lia.
    do 3 (split; [done|]).
    apply Forall2_fmap_r, Forall_Forall2_diag.
    apply within_Forall in Hin. eapply Forall_impl; [done|].
    intros tid Htid. unfold compose. cbn beta in Htid |- *.
    rewrite index_nonneg by lia.
    destruct (lookup_lt_is_Some_2 (Batched.p_transactions (this s))
                (Z.to_nat (tid - 1))) as [l Hl]; [lia|].
    exists l. rewrite Hl. do 3 (split; [done || lia|]).
    unfold Batched.records_ok in Hrec. rewrite Forall_forall in Hrec.
    apply Hrec, elem_of_app. left. by eapply list_elem_of_lookup_2.
Qed.

(** The finish id that reaches [slice]: a falsy one is left out. *)
Lemma getSeqRangeCommits_open (s : State) (startId : Z) (finishId : option Z) :
  Batched.p_open (this s) = true →
  1 ≤ startId →
  Batched.getSeqRangeCommits startId finishId s
  = mapM Batched.commit_info
         (JS.slice (Batched.p_commits (this s)) (startId - 1)
                   (if JS.truthy finishId then finishId else None)) s.
Proof.
  intros Ho Hs. unfold Batched.getSeqRangeCommits, Batched.field.
  unfold_M. cbn beta. rewrite Ho. cbn [negb].
  destruct (Z.ltb_spec startId 1); [lia|].
  destruct (JS.truthy finishId); reflexivity.
Qed.

(** C2.  The transaction ids of every stored commit form a contiguous
    ascending run within [1, countTransactions], each of them being the
    position of a committed transaction: this holds of a new log, every
    call of the interface preserves it (whether the call returns or
    throws), and so it holds in every reachable state, where moreover each
    referenced position holds a reference to an existing [Transaction]
    record. *)
Theorem commit_ids_invariant (s : State) :
  (Batched.initial s → Batched.commit_ids_ok s)
  ∧ (∀ op, Batched.commit_ids_ok s →
           Batched.commit_ids_ok (Batched.exec tsub now op s))
  ∧ (Batched.reachable tsub now s →
       Batched.commit_ids_ok s
       ∧ ∀ c obj id,
           c ∈ Batched.p_commits (this s) →
           commit_store (runtime s) !! c = Some obj →
           id ∈ commit_transactions obj →
           ∃ l txn, JS.index (Batched.p_transactions (this s)) (id - 1) = Some l
                    ∧ txn_store (runtime s) !! l = Some txn).
Proof.
  split; [apply commit_ids_ok_initial|].
  split; [intros op; apply commit_ids_ok_exec|].
  intros (Hids & _ & Hrec)%reachable_wf. split; [done|].
  intros c obj id Hc Hobj Hid.
  unfold Batched.commit_ids_ok in Hids. rewrite Forall_forall in Hids.
  destruct (Hids c Hc) as (obj' & Hobj' & _ & _ & Hres).
  assert (obj' = obj) as -> by congruence.
  rewrite Forall_forall in Hres. destruct (Hres id Hid) as [l Hl].
  unfold Batched.records_ok in Hrec. rewrite Forall_forall in Hrec.
  destruct (Hrec l) as [txn Htxn].
  { apply elem_of_app. left. unfold JS.index in Hl.
    destruct (id - 1 <? 0); [done|]. by eapply list_elem_of_lookup_2. }
  by exists l, txn.
Qed.

Lemma getSeqRangeCommits_wf (s : State) (startId : Z) (finishId : option Z) :
  Batched.wf s →
  Batched.p_open (this s) = true →
  1 ≤ startId →
  (∀ f, finishId = Some f → 1 ≤ f) →
  ∃ infos,
    returns (Batched.getSeqRangeCommits startId finishId) infos s
    ∧ Forall2 (Batched.describes s)
              (ids_in_range (length (Batched.p_commits (this s))) startId finishId)
              infos.
Proof.
  intros Hwf Ho Hs Hf. unfold returns.
  rewrite getSeqRangeCommits_open by done.
  assert ((if JS.truthy finishId then finishId else None) = finishId) as ->.
  { destruct finishId as [f|]; [|done]. specialize (Hf f eq_refl). simpl.
    by destruct (Z.eqb_spec f 0); [lia|]. }
  rewrite slice_entries_in_range by done.
  apply mapM_Forall2.
  eapply Forall2_impl; [apply entries_at_ids_in_range|].
  intros id c [Hid Hc]. cbn beta.
  destruct (commit_info_describes s c _ Hwf Hc) as (info & Hinfo & Hdesc).
  exists info. split; [done|].
  by replace (Z.of_nat (Z.to_nat (id - 1)) + 1) with id in Hdesc by lia.
Qed.

(** C3, as amended.  On an open log, for a start id of at least 1 and a
    finish id that is absent or at least 1, [getSeqRangeCommits] returns,
    without writing anything, one [CommitInfo] per commit id of the range,
    in ascending order of id; the record for the id [k] has [id = k], the
    time of the commit object at position [k] of [#commits], and as
    [transactions] the references found in [#transactions] at the
    positions that this commit lists, in the order in which it lists them:
    the very objects that were appended, each with its record in place. *)
Theorem getSeqRangeCommits_in_range (s : State) (startId : Z) (finishId : option Z) :
  Batched.reachable tsub now s →
  Batched.p_open (this s) = true →
  1 ≤ startId →
  (∀ f, finishId = Some f → 1 ≤ f) →
  ∃ infos,
    returns (Batched.getSeqRangeCommits startId finishId) infos s
    ∧ Forall2 (Batched.describes s)
              (ids_in_range (length (Batched.p_commits (this s))) startId finishId)
              infos.
Proof.
  intros Hwf%reachable_wf. by apply getSeqRangeCommits_wf.
Qed.

(** C9.  On an open log in a reachable state, for a start id of at least 1
    and any finish id, every commit taken from the slice is found by
    [indexOf] in [#commits], so that the branch throwing
    [INVALID_COMMIT_MESSAGE] is not taken: the call returns. *)
Theorem getSeqRangeCommits_never_invalid_commit
    (s : State) (startId : Z) (finishId : option Z) :
  Batched.reachable tsub now s →
  Batched.p_open (this s) = true →
  1 ≤ startId →
  (∀ c, c ∈ JS.slice (Batched.p_commits (this s)) (startId - 1)
                     (if JS.truthy finishId then finishId else None) →
        JS.indexOf (Batched.p_commits (this s)) c + 1 ≠ 0)
  ∧ (∃ infos, returns (Batched.getSeqRangeCommits startId finishId) infos s)
  ∧ fst (Batched.getSeqRangeCommits startId finishId s)
    ≠ Throw (JsError INVALID_COMMIT_MESSAGE).
Proof.
  intros Hwf%reachable_wf Ho Hs.
  assert (∃ infos, returns (Batched.getSeqRangeCommits startId finishId) infos s)
    as [infos Hinfos].
  { unfold returns. rewrite getSeqRangeCommits_open by done.
    apply mapM_Forall, Forall_forall.
    intros c [k Hk]%slice_elem_of%list_elem_of_lookup_1.
    destruct (commit_info_describes s c k Hwf Hk) as (info & Hinfo & _).
    by exists info. }
  split; [|split; [by exists infos|]].
  - intros c Hc%slice_elem_of.
    pose proof (indexOf_from_found _ _ 0 Hc). unfold JS.indexOf. lia.
  - unfold returns in Hinfos. by rewrite Hinfos.
Qed.

End BatchedRangeCommits.

(** ** [replay], for both classes *)

Section SharedReplay.
Context {L Time T W : Type}.
Variable tsub : Time → Time → Time.
Variable now : nat → Time.
Variable is_open : L → bool.
Variable txns_of : L → list loc.
Variable callback : T → W → W.

Local Abbreviation State := (Sys L Time T W).

(** The caller's world after the visitor has seen the records [recs]. *)
Local Abbreviation visited w recs :=
  (foldl (λ (acc : W) (t : Transaction Time T), callback (txn_data t) acc) w recs).






End SharedReplay.


(** ** Simple log: single calls and the invariant *)

Section SimpleCalls.
Context {Time T W : Type}.
Variable tsub : Time → Time → Time.
Variable now : nat → Time.

Local Abbreviation State := (Sys (Simple.Log T W) Time T W).

Lemma simple_append_open (data : T) (s : State) :
  Simple.p_open (this s) = true →
  Simple.append now data s = (Ok tt, simple_after_append now data s).
Proof.
  intros Hopen.
  destruct s as [[txns cbs o] [ts cms tk tm w]]; simpl in *. subst o.
  unfold Simple.append, Simple.field, Simple.set_transactions, simple_after_append.
  unfold_M. simpl. destruct (s_onappend cbs); reflexivity.
Qed.

Lemma simple_clear_closed (s : State) :
  Simple.p_open (this s) = false →
  Simple.clear s = (Ok tt, simple_after_clear s).
Proof.
  intros Hopen.
  destruct s as [[txns cbs o] [ts cms tk tm w]]; simpl in *. subst o.
  unfold Simple.clear, Simple.field, Simple.set_transactions, simple_after_clear.
  unfold_M. simpl. destruct (s_onclear cbs); reflexivity.
Qed.

Lemma simple_open_closed (s : State) :
  Simple.p_open (this s) = false →
  Simple.open s
  = (Ok tt, simple_after_set_open true (s_onopen (Simple.p_callbacks (this s))) s).
Proof.
  intros Hopen.
  destruct s as [[txns cbs o] [ts cms tk tm w]]; simpl in *. subst o.
  unfold Simple.open, Simple.field, Simple.set_open, simple_after_set_open.
  unfold_M. simpl. destruct (s_onopen cbs); reflexivity.
Qed.

Lemma simple_close_open (s : State) :
  Simple.p_open (this s) = true →
  Simple.close s
  = (Ok tt, simple_after_set_open false (s_onclose (Simple.p_callbacks (this s))) s).
Proof.
  intros Hopen.
  destruct s as [[txns cbs o] [ts cms tk tm w]]; simpl in *. subst o.
  unfold Simple.close, Simple.field, Simple.set_open, simple_after_set_open.
  unfold_M. simpl. destruct (s_onclose cbs); reflexivity.
Qed.

Lemma simple_open_open (s : State) :
  Simple.p_open (this s) = true →
  fails_with Simple.open LOG_ALREADY_OPEN_MESSAGE s.
Proof.
  intros Hopen. unfold Simple.open, Simple.field. unfold_M. by rewrite Hopen.
Qed.

Lemma simple_close_closed (s : State) :
  Simple.p_open (this s) = false →
  fails_with Simple.close LOG_ALREADY_CLOSED_MESSAGE s.
Proof.
  intros Hopen. unfold Simple.close, Simple.field. unfold_M. by rewrite Hopen.
Qed.

Lemma simple_clear_open (s : State) :
  Simple.p_open (this s) = true →
  fails_with Simple.clear LOG_OPEN_CANNOT_CLEAR_MESSAGE s.
Proof.
  intros Hopen. unfold Simple.clear, Simple.field. unfold_M. by rewrite Hopen.
Qed.

Lemma simple_count_transactions_open (s : State) :
  Simple.p_open (this s) = true →
  returns Simple.countTransactions
          (Z.of_nat (length (Simple.p_transactions (this s)))) s.
Proof.
  intros Hopen. unfold Simple.countTransactions, Simple.field. unfold_M.
  by rewrite Hopen.
Qed.

Lemma simple_closed_rejects (s : State) :
  Simple.p_open (this s) = false →
  (∀ data, fails_with (Simple.append now data) LOG_CLOSED_MESSAGE s)
  ∧ fails_with Simple.countTransactions LOG_CLOSED_MESSAGE s
  ∧ (∀ callback simulateTime,
       fails_with (Simple.replay tsub now callback simulateTime) LOG_CLOSED_MESSAGE s)
  ∧ (∀ startId finishId,
       fails_with (Simple.getSeqRangeTransactions startId finishId) LOG_CLOSED_MESSAGE s).
Proof.
  intros Hopen.
  unfold Simple.append, Simple.countTransactions, Simple.replay,
    Simple.getSeqRangeTransactions, Simple.field.
  unfold_M. rewrite Hopen. simpl. repeat split; reflexivity.
Qed.

Lemma simple_exec_shape (op : Simple.Op) (s : State) :
  same_log s (Simple.exec tsub now op s)
  ∨ (∃ b hook, Simple.exec tsub now op s = simple_after_set_open b hook s)
  ∨ (Simple.exec tsub now op s = simple_after_clear s)
  ∨ (∃ data, Simple.exec tsub now op s = simple_after_append now data s).
Proof.
  destruct op; simpl.
  - left. apply same_log_refl.
  - destruct (Simple.p_open (this s)) eqn:Ho.
    + left. rewrite (simple_open_open s Ho). apply same_log_refl.
    + right; left. rewrite (simple_open_closed s Ho). eauto.
  - destruct (Simple.p_open (this s)) eqn:Ho.
    + right; left. rewrite (simple_close_open s Ho). eauto.
    + left. rewrite (simple_close_closed s Ho). apply same_log_refl.
  - destruct (Simple.p_open (this s)) eqn:Ho.
    + left. rewrite (simple_clear_open s Ho). apply same_log_refl.
    + right; right; left. by rewrite (simple_clear_closed s Ho).
  - destruct (Simple.p_open (this s)) eqn:Ho.
    + left. rewrite (simple_count_transactions_open s Ho). apply same_log_refl.
    + left. destruct (simple_closed_rejects s Ho) as (_ & -> & _).
      apply same_log_refl.
  - destruct (Simple.p_open (this s)) eqn:Ho.
    + do 3 right. exists data. by rewrite (simple_append_open data s Ho).
    + left. destruct (simple_closed_rejects s Ho) as (-> & _).
      apply same_log_refl.
  - left. rewrite simple_replay_shared. apply keeps_log_shared_replay.
  - left. rewrite simple_range_shared. apply keeps_log_shared_range.
Qed.

Lemma simple_records_ok_exec (op : Simple.Op) (s : State) :
  Simple.records_ok s → Simple.records_ok (Simple.exec tsub now op s).
Proof.
  unfold Simple.records_ok. intros Hrec.
  destruct (simple_exec_shape op s) as [(Ht & Hts & _)|[(b & hook & ->)|[->|[data ->]]]].
  - by rewrite Ht, Hts.
  - done.
  - constructor.
  - simpl. apply Forall_app. split.
    + eapply Forall_impl; [done|]. intros l [txn Hl].
      exists txn. by apply lookup_app_l_Some.
    + apply Forall_singleton. rewrite lookup_app_r, Nat.sub_diag by lia. by eexists.
Qed.

Lemma simple_reachable_records_ok (s : State) :
  Simple.reachable tsub now s → Simple.records_ok s.
Proof.
  induction 1 as [s [cbs Hi]|s op _ IH]; [|by apply simple_records_ok_exec].
  unfold Simple.records_ok. rewrite Hi. constructor.
Qed.

Lemma simple_reachable_run (ops : list Simple.Op) (s : State) :
  Simple.reachable tsub now s →
  Simple.reachable tsub now (Simple.run tsub now ops s).
Proof.
  revert s. induction ops as [|op ops IH]; intros s Hs; [done|].
  simpl. apply IH. by constructor.
Qed.

End SimpleCalls.

(** ** [getSeqRangeTransactions], for both classes *)

Lemma entries_in_range_clamped {A} (arr : list A) (startId f : Z) :
  1 ≤ startId → Z.of_nat (length arr) ≤ f →
  entries_in_range arr startId (Some f) = entries_in_range arr startId None.
Proof.
  intros Hs Hf. unfold entries_in_range.
  rewrite select_ids_from_to, select_ids_from by lia.
  apply take_ge. rewrite length_drop. lia.
Qed.

Lemma entries_in_range_beyond {A} (arr : list A) (startId : Z) (finishId : option Z) :
  Z.of_nat (length arr) < startId →
  entries_in_range arr startId finishId = [].
Proof.
  intros Hs. unfold entries_in_range.
  assert (∀ (l : list A) base, 1 ≤ base → base + Z.of_nat (length l) ≤ startId →
            select_ids (in_seq_range startId finishId) base l = []) as H.
  { induction l as [|x l IH]; intros base Hb Hl; [done|]. simpl in *.
    unfold in_seq_range at 1.
    destruct (Z.leb_spec startId base); [lia|]. simpl. apply IH; lia. }
  apply H; lia.
Qed.

Section SharedRange.
Context {L Time T W : Type}.
Variable is_open : L → bool.
Variable txns_of : L → list loc.

Local Abbreviation State := (Sys L Time T W).

Lemma shared_range_invalid (s : State) (startId : Z) (finishId : option Z) :
  is_open (this s) = true →
  startId < 1 →
  fails_with (shared_range is_open txns_of startId finishId)
             INVALID_SEQUENCE_ID_MESSAGE s.
Proof.
  intros Ho Hs. unfold shared_range. unfold_M. rewrite Ho. simpl.
  by destruct (Z.ltb_spec startId 1); [|lia].
Qed.

Lemma shared_range_open (s : State) (startId : Z) (finishId : option Z) :
  is_open (this s) = true →
  1 ≤ startId →
  returns (shared_range is_open txns_of startId finishId)
          (JS.slice (txns_of (this s)) (startId - 1)
                    (if JS.truthy finishId then finishId else None)) s.
Proof.
  intros Ho Hs. unfold shared_range. unfold_M. rewrite Ho. simpl.
  destruct (Z.ltb_spec startId 1); [lia|].
  by destruct (JS.truthy finishId).
Qed.

Lemma shared_range_query (s : State) (startId : Z) (finishId : option Z) :
  is_open (this s) = true →
  (∀ f, finishId = Some f → 1 ≤ f) →
  range_query (shared_range is_open txns_of) (txns_of (this s)) s startId finishId.
Proof.
  intros Ho Hf. split; [by apply shared_range_invalid|].
  intros Hs. split; [|split].
  - pose proof (shared_range_open s startId finishId Ho Hs) as H.
    assert ((if JS.truthy finishId then finishId else None) = finishId) as Heq.
    { destruct finishId as [f|]; [|done]. specialize (Hf f eq_refl). simpl.
      by destruct (Z.eqb_spec f 0); [lia|]. }
    rewrite Heq in H. by rewrite slice_entries_in_range in H.
  - intros f -> Hlen. by apply entries_in_range_clamped.
  - apply entries_in_range_beyond.
Qed.

End SharedRange.

(** ** Theorems about both classes *)

Section BothClasses.
Context {Time T W : Type}.
Variable tsub : Time → Time → Time.
Variable now : nat → Time.

Local Abbreviation BState := (Sys (Batched.Log Time T W) Time T W).
Local Abbreviation SState := (Sys (Simple.Log T W) Time T W).

(** C4, as amended.  On an open log of either class,
    [getSeqRangeTransactions] throws [INVALID_SEQUENCE_ID_MESSAGE] for a
    start id below 1; for a start id of at least 1 and a finish id that is
    absent or at least 1 it returns exactly the committed transactions
    whose sequence id lies in the inclusive range, in id order, where a
    finish id at or beyond the number of transactions gives what no finish
    id gives, and a start id beyond it gives the empty list. *)
Theorem getSeqRangeTransactions_in_range
    (sb : BState) (ss : SState) (startId : Z) (finishId : option Z) :
  (Batched.p_open (this sb) = true →
     (startId < 1 →
        fails_with (Batched.getSeqRangeTransactions startId finishId)
                   INVALID_SEQUENCE_ID_MESSAGE sb)
     ∧ ((∀ f, finishId = Some f → 1 ≤ f) →
          range_query Batched.getSeqRangeTransactions
                      (Batched.p_transactions (this sb)) sb startId finishId))
  ∧ (Simple.p_open (this ss) = true →
       (startId < 1 →
          fails_with (Simple.getSeqRangeTransactions startId finishId)
                     INVALID_SEQUENCE_ID_MESSAGE ss)
       ∧ ((∀ f, finishId = Some f → 1 ≤ f) →
            range_query Simple.getSeqRangeTransactions
                        (Simple.p_transactions (this ss)) ss startId finishId)).
Proof.
  split; intros Ho; split.
  - by apply (shared_range_invalid Batched.p_open Batched.p_transactions).
  - by apply (shared_range_query Batched.p_open Batched.p_transactions).
  - by apply (shared_range_invalid Simple.p_open Simple.p_transactions).
  - by apply (shared_range_query Simple.p_open Simple.p_transactions).
Qed.


(** C6.  On a closed log of either class, each of [append], [commit],
    [countCommits], [countTransactions], [replay],
    [getSeqRangeTransactions] and [getSeqRangeCommits] that the class has
    throws [LOG_CLOSED_MESSAGE], and the state after the call is the state
    before it. *)
Theorem closed_log_rejects (sb : BState) (ss : SState) :
  (Batched.p_open (this sb) = false →
     (∀ data, fails_with (Batched.append now data) LOG_CLOSED_MESSAGE sb)
     ∧ fails_with (Batched.commit now) LOG_CLOSED_MESSAGE sb
     ∧ fails_with Batched.countCommits LOG_CLOSED_MESSAGE sb
     ∧ fails_with Batched.countTransactions LOG_CLOSED_MESSAGE sb
     ∧ (∀ callback simulateTime,
          fails_with (Batched.replay tsub now callback simulateTime)
                     LOG_CLOSED_MESSAGE sb)
     ∧ (∀ startId finishId,
          fails_with (Batched.getSeqRangeTransactions startId finishId)
                     LOG_CLOSED_MESSAGE sb)
     ∧ (∀ startId finishId,
          fails_with (Batched.getSeqRangeCommits startId finishId)
                     LOG_CLOSED_MESSAGE sb))
  ∧ (Simple.p_open (this ss) = false →
       (∀ data, fails_with (Simple.append now data) LOG_CLOSED_MESSAGE ss)
       ∧ fails_with Simple.countTransactions LOG_CLOSED_MESSAGE ss
       ∧ (∀ callback simulateTime,
            fails_with (Simple.replay tsub now callback simulateTime)
                       LOG_CLOSED_MESSAGE ss)
       ∧ (∀ startId finishId,
            fails_with (Simple.getSeqRangeTransactions startId finishId)
                       LOG_CLOSED_MESSAGE ss)).
Proof.
  split; intros Ho.
  - by apply batched_closed_rejects.
  - by apply simple_closed_rejects.
Qed.

(** C10.  On an open log of either class, for a start id of at least 1, a
    finish id of 0 gives what no finish id gives: [getSeqRangeTransactions]
    returns every committed transaction from the start id to the end, which
    is not the empty list as soon as the start id is the id of a committed
    transaction, and [getSeqRangeCommits] is the same call as without a
    finish id, which in a reachable state returns the commits of every id
    from the start id on. *)
Theorem finish_zero_is_omitted (sb : BState) (ss : SState) (startId : Z) :
  1 ≤ startId →
  (Batched.p_open (this sb) = true →
     Batched.getSeqRangeTransactions startId (Some 0) sb
     = Batched.getSeqRangeTransactions startId None sb
     ∧ returns (Batched.getSeqRangeTransactions startId (Some 0))
               (drop (Z.to_nat (startId - 1)) (Batched.p_transactions (this sb))) sb
     ∧ (startId ≤ Z.of_nat (length (Batched.p_transactions (this sb))) →
          drop (Z.to_nat (startId - 1)) (Batched.p_transactions (this sb)) ≠ [])
     ∧ Batched.getSeqRangeCommits startId (Some 0) sb
       = Batched.getSeqRangeCommits startId None sb
     ∧ (Batched.reachable tsub now sb →
          ∃ infos,
            returns (Batched.getSeqRangeCommits startId (Some 0)) infos sb
            ∧ Forall2 (Batched.describes sb)
                      (ids_in_range (length (Batched.p_commits (this sb))) startId None)
                      infos))
  ∧ (Simple.p_open (this ss) = true →
       Simple.getSeqRangeTransactions startId (Some 0) ss
       = Simple.getSeqRangeTransactions startId None ss
       ∧ returns (Simple.getSeqRangeTransactions startId (Some 0))
                 (drop (Z.to_nat (startId - 1)) (Simple.p_transactions (this ss))) ss
       ∧ (startId ≤ Z.of_nat (length (Simple.p_transactions (this ss))) →
            drop (Z.to_nat (startId - 1)) (Simple.p_transactions (this ss)) ≠ [])).
Proof.
  intros Hs.
  assert (∀ (arr : list loc), startId ≤ Z.of_nat (length arr) →
            drop (Z.to_nat (startId - 1)) arr ≠ []) as Hdrop.
  { intros arr Hlen Hnil%drop_nil_inv. lia. }
  split; intros Ho.
  - split; [done|]. split.
    { pose proof (shared_range_open Batched.p_open Batched.p_transactions
                    sb startId (Some 0) Ho Hs) as H.
      simpl in H. by rewrite slice_from in H. }
    split; [apply Hdrop|]. split; [done|].
    intros Hwf%reachable_wf.
    change (Batched.getSeqRangeCommits startId (Some 0))
      with (Batched.getSeqRangeCommits (Time:=Time) (T:=T) (W:=W) startId None).
    by apply getSeqRangeCommits_wf.
  - split; [done|]. split; [|apply Hdrop].
    pose proof (shared_range_open Simple.p_open Simple.p_transactions
                  ss startId (Some 0) Ho Hs) as H.
    simpl in H. by rewrite slice_from in H.
Qed.

End BothClasses.

(** ** [clear] and the numbering after it *)

Lemma resolve_all_ids {A} (arr : list A) :
  (λ tid, JS.index arr (tid - 1)) <$> seqZ 1 (Z.of_nat (length arr)) = Some <$> arr.
Proof.
  apply list_eq. intros i. rewrite !list_lookup_fmap.
  destruct (decide (i < length arr)%nat) as [Hi|Hi].
  - rewrite lookup_seqZ_lt by lia. simpl.
    replace (1 + Z.of_nat i - 1) with (Z.of_nat i) by lia.
    rewrite index_of_nat.
    destruct (lookup_lt_is_Some_2 arr i Hi) as [x Hx]. by rewrite Hx.
  - rewrite lookup_seqZ_ge by lia. by rewrite lookup_ge_None_2 by lia.
Qed.

(** [data] is what the record behind each reference holds. *)
Local Abbreviation holds ts :=
  (Forall2 (λ d (l : loc), ∃ t, ts !! l = Some t ∧ txn_data t = d)).

Section Renumbering.
Context {Time T W : Type}.
Variable tsub : Time → Time → Time.
Variable now : nat → Time.

Local Abbreviation BState := (Sys (Batched.Log Time T W) Time T W).
Local Abbreviation SState := (Sys (Simple.Log T W) Time T W).

Lemma batched_run_app (ops1 ops2 : list Batched.Op) (s : BState) :
  Batched.run tsub now (ops1 ++ ops2) s
  = Batched.run tsub now ops2 (Batched.run tsub now ops1 s).
Proof. apply foldl_app. Qed.

(** A run of appends on an open log pushes one new reference per datum on
    the buffer, each with a record holding that datum. *)
Lemma batched_run_appends (ds : list T) (s : BState) :
  Batched.p_open (this s) = true →
  ∃ locs,
    let s' := Batched.run tsub now (Batched.OpAppend <$> ds) s in
    this s' = Batched.mkLog (Batched.p_commits (this s))
                            (Batched.p_transactions (this s))
                            (Batched.p_buffer (this s) ++ locs)
                            (Batched.p_callbacks (this s)) true
    ∧ commit_store (runtime s') = commit_store (runtime s)
    ∧ txn_store (runtime s) `prefix_of` txn_store (runtime s')
    ∧ holds (txn_store (runtime s')) ds locs.
Proof.
  revert s. induction ds as [|d ds IH]; intros s Ho.
  { exists []. simpl. rewrite app_nil_r.
    split; [|by repeat split; try constructor].
    destruct s as [[] ?]; simpl in *. by subst. }
  destruct (IH (after_append now d s) Ho) as (locs & Hthis & Hcs & Hpre & Hdata).
  exists (length (txn_store (runtime s)) :: locs).
  cbn [fmap list_fmap Batched.run foldl Batched.exec].
  rewrite (append_open now d s Ho). cbn [snd].
  fold (Batched.run tsub now (Batched.OpAppend <$> ds) (after_append now d s)).
  cbv zeta in *. rewrite Hthis, Hcs. simpl in *.
  split; [by rewrite <- app_assoc|]. split; [done|].
  split; [etrans; [|exact Hpre]; by apply prefix_app_r|].
  constructor; [|done].
  exists (mkTransaction (now (ticks (runtime s))) d). split; [|done].
  eapply prefix_lookup_Some; [|done].
  by rewrite lookup_app_r, Nat.sub_diag by lia.
Qed.

Lemma simple_run_appends (ds : list T) (s : SState) :
  Simple.p_open (this s) = true →
  ∃ locs,
    let s' := Simple.run tsub now (Simple.OpAppend <$> ds) s in
    this s' = Simple.mkLog (Simple.p_transactions (this s) ++ locs)
                           (Simple.p_callbacks (this s)) true
    ∧ txn_store (runtime s) `prefix_of` txn_store (runtime s')
    ∧ holds (txn_store (runtime s')) ds locs.
Proof.
  revert s. induction ds as [|d ds IH]; intros s Ho.
  { exists []. simpl. rewrite app_nil_r.
    split; [|by repeat split; try constructor].
    destruct s as [[] ?]; simpl in *. by subst. }
  destruct (IH (simple_after_append now d s) Ho) as (locs & Hthis & Hpre & Hdata).
  exists (length (txn_store (runtime s)) :: locs).
  cbn [fmap list_fmap Simple.run foldl Simple.exec].
  rewrite (simple_append_open now d s Ho). cbn [snd].
  fold (Simple.run tsub now (Simple.OpAppend <$> ds) (simple_after_append now d s)).
  cbv zeta in *. rewrite Hthis. simpl in *.
  split; [by rewrite <- app_assoc|].
  split; [etrans; [|exact Hpre]; by apply prefix_app_r|].
  constructor; [|done].
  exists (mkTransaction (now (ticks (runtime s))) d). split; [|done].
  eapply prefix_lookup_Some; [|done].
  by rewrite lookup_app_r, Nat.sub_diag by lia.
Qed.

(** After [clear], [open], a run of appends and [commit], there is one
    commit; it has the id 1 and lists the ids from 1 on. *)
Lemma batched_renumbered (s1 : BState) (ds : list T) :
  Batched.p_open (this s1) = false →
  Batched.p_commits (this s1) = [] →
  Batched.p_transactions (this s1) = [] →
  Batched.p_buffer (this s1) = [] →
  ds ≠ [] →
  let s3 := Batched.run tsub now
              (Batched.OpOpen :: (Batched.OpAppend <$> ds) ++ [Batched.OpCommit]) s1 in
  ∃ c obj locs,
    Batched.p_commits (this s3) = [c]
    ∧ commit_store (runtime s3) !! c = Some obj
    ∧ commit_transactions obj = seqZ 1 (Z.of_nat (length ds))
    ∧ Batched.p_transactions (this s3) = locs
    ∧ holds (txn_store (runtime s3)) ds locs
    ∧ returns Batched.countCommits 1 s3
    ∧ returns Batched.countTransactions (Z.of_nat (length ds)) s3
    ∧ returns (Batched.getSeqRangeCommits 1 None)
              [mkCommitInfo 1 (commit_time obj) (Some <$> locs)] s3.
Proof.
  intros Ho1 Hc1 Ht1 Hb1 Hds s3.
  set (s2 := after_set_open true (onopen (Batched.p_callbacks (this s1))) s1).
  destruct (batched_run_appends ds s2 eq_refl) as (locs & Hthis & Hcs & Hpre & Hdata).
  cbv zeta in *.
  set (s' := Batched.run tsub now (Batched.OpAppend <$> ds) s2) in *.
  simpl in Hthis. rewrite Hc1, Ht1, Hb1 in Hthis. simpl in Hthis.
  assert (length locs = length ds) as Hlen by (symmetry; by eapply Forall2_length).
  assert (s3 = after_commit now s') as Hs3.
  { unfold s3. cbn [Batched.run foldl Batched.exec].
    rewrite (open_closed s1 Ho1). cbn [snd]. fold s2.
    fold (Batched.run tsub now ((Batched.OpAppend <$> ds) ++ [Batched.OpCommit]) s2).
    rewrite batched_run_app. fold s'. cbn [Batched.run foldl Batched.exec].
    rewrite commit_open_nonempty; [done|by rewrite Hthis|].
    rewrite Hthis. simpl. intros ->. by destruct ds. }
  clearbody s3 s'. subst s3.
  destruct s' as [lg' [ts cms tk tm w]]. simpl in Hthis, Hcs, Hdata. subst lg'.
  exists (length cms), (commit_object now (mkSys (Batched.mkLog [] [] locs
            (Batched.p_callbacks (this s1)) true) (mkRuntime ts cms tk tm w))), locs.
  split; [done|].
  split; [simpl; by rewrite lookup_app_r, Nat.sub_diag by lia|].
  split; [simpl; by rewrite Hlen|].
  split; [done|]. split; [done|].
  split; [done|].
  split; [unfold Batched.countTransactions, Batched.field; unfold_M; simpl;
          by rewrite Hlen|].
  set (s3 := after_commit now _).
  unfold returns. rewrite getSeqRangeCommits_open by done.
  change (Batched.p_commits (this s3)) with [length cms].
  change (JS.slice [length cms] (1 - 1) (if JS.truthy None then None else None))
    with [length cms].
  cbn [mapM]. unfold mbind, M_bind, bind.
  rewrite (commit_info_at s3 (length cms) 0
             (commit_object now (mkSys (Batched.mkLog [] [] locs
                (Batched.p_callbacks (this s1)) true) (mkRuntime ts cms tk tm w)))).
  - cbn [mapM mret M_ret ret commit_object commit_time commit_transactions
         this runtime Batched.p_transactions Batched.p_buffer length].
    change (Batched.p_transactions (this s3)) with locs.
    change (Z.of_nat 0 + 1) with 1.
    by rewrite resolve_all_ids.
  - apply NoDup_singleton.
  - done.
  - simpl. by rewrite lookup_app_r, Nat.sub_diag by lia.
Qed.

Lemma simple_renumbered (s1 : SState) (ds : list T) :
  Simple.p_open (this s1) = false →
  Simple.p_transactions (this s1) = [] →
  let s3 := Simple.run tsub now (Simple.OpOpen :: (Simple.OpAppend <$> ds)) s1 in
  ∃ locs,
    Simple.p_transactions (this s3) = locs
    ∧ holds (txn_store (runtime s3)) ds locs
    ∧ returns Simple.countTransactions (Z.of_nat (length ds)) s3
    ∧ returns (Simple.getSeqRangeTransactions 1 None) locs s3.
Proof.
  intros Ho1 Ht1 s3.
  set (s2 := simple_after_set_open true (s_onopen (Simple.p_callbacks (this s1))) s1).
  destruct (simple_run_appends ds s2 eq_refl) as (locs & Hthis & Hpre & Hdata).
  cbv zeta in *.
  assert (s3 = Simple.run tsub now (Simple.OpAppend <$> ds) s2) as Hs3.
  { unfold s3. cbn [Simple.run foldl Simple.exec].
    by rewrite (simple_open_closed s1 Ho1). }
  rewrite <- Hs3 in *. clearbody s3. clear Hs3.
  simpl in Hthis. rewrite Ht1 in Hthis. simpl in Hthis.
  assert (length locs = length ds) as Hlen by (symmetry; by eapply Forall2_length).
  exists locs. split; [by rewrite Hthis|]. split; [done|].
  split.
  - pose proof (simple_count_transactions_open s3) as H.
    rewrite Hthis in H. simpl in H. rewrite Hlen in H. by apply H.
  - pose proof (shared_range_open Simple.p_open Simple.p_transactions s3 1 None) as H.
    rewrite Hthis in H. specialize (H eq_refl ltac:(lia)).
    cbn [JS.truthy Simple.p_transactions] in H.
    rewrite slice_from in H by lia. by rewrite simple_range_shared.
Qed.

(** C8.  On an open log of either class [clear()] throws
    [LOG_OPEN_CANNOT_CLEAR_MESSAGE] and writes nothing.  On a closed log it
    returns and leaves the commits, the transactions and the buffer empty,
    the log still closed: once reopened, both counts are 0, and after a run
    of appends (and, on the batched log, a commit) the transactions have
    the ids from 1 on, in the order of the appends, and the commit has the
    id 1. *)
Theorem clear_resets (sb : BState) (ss : SState) :
  (Batched.p_open (this sb) = true →
     fails_with Batched.clear LOG_OPEN_CANNOT_CLEAR_MESSAGE sb)
  ∧ (Batched.p_open (this sb) = false →
       ∃ s1, Batched.clear sb = (Ok tt, s1)
           ∧ Batched.p_commits (this s1) = []
           ∧ Batched.p_transactions (this s1) = []
           ∧ Batched.p_buffer (this s1) = []
           ∧ Batched.p_open (this s1) = false
           ∧ returns Batched.countCommits 0 (Batched.exec tsub now Batched.OpOpen s1)
           ∧ returns Batched.countTransactions 0
                     (Batched.exec tsub now Batched.OpOpen s1)
           ∧ ∀ ds, ds ≠ [] →
               let s3 := Batched.run tsub now
                           (Batched.OpOpen :: (Batched.OpAppend <$> ds)
                              ++ [Batched.OpCommit]) s1 in
               ∃ c obj locs,
                 Batched.p_commits (this s3) = [c]
                 ∧ commit_store (runtime s3) !! c = Some obj
                 ∧ commit_transactions obj = seqZ 1 (Z.of_nat (length ds))
                 ∧ Batched.p_transactions (this s3) = locs
                 ∧ holds (txn_store (runtime s3)) ds locs
                 ∧ returns Batched.countCommits 1 s3
                 ∧ returns Batched.countTransactions (Z.of_nat (length ds)) s3
                 ∧ returns (Batched.getSeqRangeCommits 1 None)
                           [mkCommitInfo 1 (commit_time obj) (Some <$> locs)] s3)
  ∧ (Simple.p_open (this ss) = true →
       fails_with Simple.clear LOG_OPEN_CANNOT_CLEAR_MESSAGE ss)
  ∧ (Simple.p_open (this ss) = false →
       ∃ s1, Simple.clear ss = (Ok tt, s1)
           ∧ Simple.p_transactions (this s1) = []
           ∧ Simple.p_open (this s1) = false
           ∧ returns Simple.countTransactions 0 (Simple.exec tsub now Simple.OpOpen s1)
           ∧ ∀ ds,
               let s3 := Simple.run tsub now
                           (Simple.OpOpen :: (Simple.OpAppend <$> ds)) s1 in
               ∃ locs,
                 Simple.p_transactions (this s3) = locs
                 ∧ holds (txn_store (runtime s3)) ds locs
                 ∧ returns Simple.countTransactions (Z.of_nat (length ds)) s3
                 ∧ returns (Simple.getSeqRangeTransactions 1 None) locs s3).
Proof.
  split; [apply clear_open|]. split; [|split; [apply simple_clear_open|]].
  - intros Ho. exists (after_clear sb).
    split; [by apply clear_closed|]. do 4 (split; [done|]).
    split; [|split].
    + simpl. by rewrite (open_closed (after_clear sb) Ho).
    + simpl. by rewrite (open_closed (after_clear sb) Ho).
    + intros ds Hds. by apply batched_renumbered.
  - intros Ho. exists (simple_after_clear ss).
    split; [by apply simple_clear_closed|]. do 2 (split; [done|]).
    split.
    + simpl. by rewrite (simple_open_closed (simple_after_clear ss) Ho).
    + intros ds. by apply simple_renumbered.
Qed.

End Renumbering.

(** * The theorems on the example logs *)

Lemma example_batched_reachable (ops : list Batched.Op) :
  Batched.reachable Z.sub Example.clock
    (Batched.run Z.sub Example.clock ops Example.new_batched).
Proof. apply reachable_run, Batched.reachable_initial. by exists None. Qed.

Lemma example_simple_reachable (ops : list Simple.Op) :
  Simple.reachable Z.sub Example.clock
    (Simple.run Z.sub Example.clock ops Example.new_simple).
Proof. apply simple_reachable_run, Simple.reachable_initial. by exists None. Qed.

(** C1 on [open(); append("foo"); append("bar")]: the commit lists [1; 2]. *)
Lemma commit_moves_buffer_witness :
  Batched.p_open (this Example.batched_buffered) = true
  ∧ Batched.p_buffer (this Example.batched_buffered) ≠ []
  ∧ ∃ s' c obj,
      Batched.commit Example.clock Example.batched_buffered = (Ok tt, s')
      ∧ returns Batched.countCommits 1 s'
      ∧ returns Batched.countTransactions 2 s'
      ∧ Batched.p_buffer (this s') = []
      ∧ commit_store (runtime s') !! c = Some obj
      ∧ commit_transactions obj = [1; 2].
Proof.
  split; [reflexivity|]. split; [discriminate|].
  destruct (commit_moves_buffer Example.clock Example.batched_buffered)
    as (s' & c & obj & H1 & H2 & H3 & H4 & _ & H6 & H7 & _);
    [reflexivity|discriminate|].
  exists s', c, obj. repeat split; assumption.
Defined.

(** C7 on [open(); append("foo"); append("bar"); commit()]. *)
Lemma commit_empty_buffer_witness :
  Batched.p_open (this Example.batched_committed) = true
  ∧ Batched.p_buffer (this Example.batched_committed) = []
  ∧ fails_with (Batched.commit Example.clock) BUFFER_EMPTY_CANNOT_COMMIT_MESSAGE
               Example.batched_committed.
Proof.
  split; [reflexivity|]. split; [reflexivity|].
  apply (commit_empty_buffer Example.clock Example.batched_committed); reflexivity.
Defined.

(** C2 on a log with two commits and a buffered transaction. *)
Lemma commit_ids_invariant_witness :
  Batched.reachable Z.sub Example.clock Example.batched_two_commits
  ∧ Batched.commit_ids_ok Example.batched_two_commits
  ∧ Batched.commit_ids_ok
      (Batched.exec Z.sub Example.clock Batched.OpCommit Example.batched_two_commits).
Proof.
  pose proof (example_batched_reachable Example.batched_two_commits_ops) as Hreach.
  split; [exact Hreach|].
  destruct (commit_ids_invariant Z.sub Example.clock Example.batched_two_commits)
    as (_ & Hstep & Hinv).
  destruct (Hinv Hreach) as [Hok _].
  split; [exact Hok|]. exact (Hstep Batched.OpCommit Hok).
Defined.

(** C3 on the same log: the commits 1 and 2. *)
Lemma getSeqRangeCommits_in_range_witness :
  Batched.reachable Z.sub Example.clock Example.batched_two_commits
  ∧ Batched.p_open (this Example.batched_two_commits) = true
  ∧ 1 ≤ 1
  ∧ (∀ f, Some 2 = Some f → 1 ≤ f)
  ∧ ∃ infos,
      returns (Batched.getSeqRangeCommits 1 (Some 2)) infos Example.batched_two_commits
      ∧ Forall2 (Batched.describes Example.batched_two_commits) [1; 2] infos.
Proof.
  pose proof (example_batched_reachable Example.batched_two_commits_ops) as Hreach.
  assert (∀ f, Some 2 = Some f → 1 ≤ f) as Hf by (intros f [= <-]; lia).
  split; [exact Hreach|]. split; [reflexivity|]. split; [lia|]. split; [exact Hf|].
  exact (getSeqRangeCommits_in_range Z.sub Example.clock Example.batched_two_commits
           1 (Some 2) Hreach eq_refl ltac:(lia) Hf).
Defined.

(** C3 as stated fails for a finish id of 0 and for a negative one: the range
    from 1 to such an id holds no commit id, and the call returns commits. *)
Lemma getSeqRangeCommits_in_range_counterexample :
  Batched.reachable Z.sub Example.clock Example.batched_two_commits
  ∧ Batched.p_open (this Example.batched_two_commits) = true
  ∧ ¬ (∃ infos,
         returns (Batched.getSeqRangeCommits 1 (Some 0)) infos
                 Example.batched_two_commits
         ∧ Forall2 (Batched.describes Example.batched_two_commits)
                   (ids_in_range 2 1 (Some 0)) infos)
  ∧ ¬ (∃ infos,
         returns (Batched.getSeqRangeCommits 1 (Some (-1))) infos
                 Example.batched_two_commits
         ∧ Forall2 (Batched.describes Example.batched_two_commits)
                   (ids_in_range 2 1 (Some (-1))) infos).
Proof.
  split; [apply (example_batched_reachable Example.batched_two_commits_ops)|].
  split; [reflexivity|].
  split; intros (infos & Hret & Hall);
    apply Forall2_nil_inv_l in Hall as ->;
    unfold returns in Hret; vm_compute in Hret; discriminate Hret.
Qed.

(** C9 on the same log, with a negative finish id. *)
Lemma getSeqRangeCommits_never_invalid_commit_witness :
  Batched.reachable Z.sub Example.clock Example.batched_two_commits
  ∧ Batched.p_open (this Example.batched_two_commits) = true
  ∧ 1 ≤ 1
  ∧ fst (Batched.getSeqRangeCommits 1 (Some (-1)) Example.batched_two_commits)
    ≠ Throw (JsError INVALID_COMMIT_MESSAGE).
Proof.
  pose proof (example_batched_reachable Example.batched_two_commits_ops) as Hreach.
  split; [exact Hreach|]. split; [reflexivity|]. split; [lia|].
  exact (proj2 (proj2 (getSeqRangeCommits_never_invalid_commit Z.sub Example.clock
           Example.batched_two_commits 1 (Some (-1)) Hreach eq_refl ltac:(lia)))).
Defined.

(** C4, as amended, on a batched log with three committed transactions and
    on a simple log with two: the ids 2 to 3. *)
Lemma getSeqRangeTransactions_in_range_witness :
  Batched.p_open (this Example.batched_two_commits) = true
  ∧ Simple.p_open (this Example.simple_appended) = true
  ∧ (∀ f, Some 3 = Some f → 1 ≤ f)
  ∧ returns (Batched.getSeqRangeTransactions 2 (Some 3)) [1%nat; 2%nat]
            Example.batched_two_commits
  ∧ returns (Simple.getSeqRangeTransactions 2 (Some 3)) [1%nat]
            Example.simple_appended.
Proof.
  assert (∀ f, Some 3 = Some f → 1 ≤ f) as Hf by (intros f [= <-]; lia).
  split; [reflexivity|]. split; [reflexivity|]. split; [exact Hf|].
  destruct (getSeqRangeTransactions_in_range
              Example.batched_two_commits Example.simple_appended 2 (Some 3))
    as [Hb Hs].
  destruct (Hb eq_refl) as [_ Hb']. destruct (Hs eq_refl) as [_ Hs'].
  destruct (Hb' Hf) as [_ Hbq]. destruct (Hs' Hf) as [_ Hsq].
  split.
  - exact (proj1 (Hbq ltac:(lia))).
  - exact (proj1 (Hsq ltac:(lia))).
Defined.

(** C4 as stated fails for a finish id of 0 and for a negative one, on both
    classes: the range from 1 to such an id is empty, and the call returns
    transactions. *)
Lemma getSeqRangeTransactions_in_range_counterexample :
  Batched.p_open (this Example.batched_two_commits) = true
  ∧ Simple.p_open (this Example.simple_appended) = true
  ∧ ¬ range_query Batched.getSeqRangeTransactions
        (Batched.p_transactions (this Example.batched_two_commits))
        Example.batched_two_commits 1 (Some 0)
  ∧ ¬ range_query Batched.getSeqRangeTransactions
        (Batched.p_transactions (this Example.batched_two_commits))
        Example.batched_two_commits 1 (Some (-1))
  ∧ ¬ range_query Simple.getSeqRangeTransactions
        (Simple.p_transactions (this Example.simple_appended))
        Example.simple_appended 1 (Some 0)
  ∧ ¬ range_query Simple.getSeqRangeTransactions
        (Simple.p_transactions (this Example.simple_appended))
        Example.simple_appended 1 (Some (-1)).
Proof.
  split; [reflexivity|]. split; [reflexivity|].
  repeat split; intros [_ H]; destruct (H ltac:(lia)) as [Hret _];
    unfold returns in Hret; vm_compute in Hret; discriminate Hret.
Qed.


(** C6 on the two logs after [close()]. *)
Lemma closed_log_rejects_witness :
  Batched.p_open (this Example.batched_closed) = false
  ∧ Simple.p_open (this Example.simple_closed) = false
  ∧ fails_with (Batched.commit Example.clock) LOG_CLOSED_MESSAGE Example.batched_closed
  ∧ fails_with Simple.countTransactions LOG_CLOSED_MESSAGE Example.simple_closed.
Proof.
  split; [reflexivity|]. split; [reflexivity|].
  destruct (closed_log_rejects Z.sub Example.clock
              Example.batched_closed Example.simple_closed) as [Hb Hs].
  split.
  - exact (proj1 (proj2 (Hb eq_refl))).
  - exact (proj1 (proj2 (Hs eq_refl))).
Defined.

(** C8 on the two logs after [close()]: [clear()] returns, and an open log is
    not cleared. *)
Lemma clear_resets_witness :
  Batched.p_open (this Example.batched_closed) = false
  ∧ Simple.p_open (this Example.simple_closed) = false
  ∧ Batched.p_open (this Example.batched_two_commits) = true
  ∧ (∃ s1, Batched.clear Example.batched_closed = (Ok tt, s1)
         ∧ Batched.p_commits (this s1) = []
         ∧ Batched.p_transactions (this s1) = []
         ∧ Batched.p_buffer (this s1) = [])
  ∧ (∃ s1, Simple.clear Example.simple_closed = (Ok tt, s1)
         ∧ Simple.p_transactions (this s1) = [])
  ∧ fails_with Batched.clear LOG_OPEN_CANNOT_CLEAR_MESSAGE Example.batched_two_commits.
Proof.
  split; [reflexivity|]. split; [reflexivity|]. split; [reflexivity|].
  destruct (clear_resets Z.sub Example.clock
              Example.batched_closed Example.simple_closed) as (_ & Hb & _ & Hs).
  destruct (Hb eq_refl) as (sb1 & Hb1 & Hb2 & Hb3 & Hb4 & _).
  destruct (Hs eq_refl) as (ss1 & Hs1 & Hs2 & _).
  split; [by exists sb1|]. split; [by exists ss1|].
  exact (proj1 (clear_resets Z.sub Example.clock
                  Example.batched_two_commits Example.simple_closed) eq_refl).
Defined.

(** C10 on the batched log with three committed transactions and the simple
    log with two, from the id 2 on. *)
Lemma finish_zero_is_omitted_witness :
  1 ≤ 2
  ∧ Batched.p_open (this Example.batched_two_commits) = true
  ∧ Simple.p_open (this Example.simple_appended) = true
  ∧ returns (Batched.getSeqRangeTransactions 2 (Some 0)) [1%nat; 2%nat]
            Example.batched_two_commits
  ∧ returns (Simple.getSeqRangeTransactions 2 (Some 0)) [1%nat]
            Example.simple_appended.
Proof.
  split; [lia|]. split; [reflexivity|]. split; [reflexivity|].
  destruct (finish_zero_is_omitted Z.sub Example.clock
              Example.batched_two_commits Example.simple_appended 2 ltac:(lia))
    as [Hb Hs].
  split.
  - exact (proj1 (proj2 (Hb eq_refl))).
  - exact (proj1 (proj2 (Hs eq_refl))).
Defined.

(** The example of the README: after [append("foo"); append("bar");
    commit()], the transactions 1 to 2 are the two appended records, in
    order, and the commits from 1 on are the one commit, with the id 1 and
    those two records. *)
Example readme_round_trip :
  fst (Batched.getSeqRangeTransactions 1 (Some 2) Example.batched_committed)
  = Ok [0%nat; 1%nat]
  ∧ fst (Batched.getSeqRangeCommits 1 None Example.batched_committed)
    = Ok [mkCommitInfo 1 20 [Some 0%nat; Some 1%nat]]
  ∧ txn_data <$> txn_store (runtime Example.batched_committed)
    = ["foo"; "bar"]%string
  ∧ commit_transactions <$> commit_store (runtime Example.batched_committed)
    = [[1; 2]].
Proof. repeat split; reflexivity. Qed.

(** A negative finish id counts from the end of the collection. *)
Example negative_finish_id :
  fst (Batched.getSeqRangeTransactions 1 (Some (-1)) Example.batched_two_commits)
  = Ok [0%nat; 1%nat]
  ∧ fst (Batched.getSeqRangeTransactions 1 (Some 0) Example.batched_two_commits)
    = Ok [0%nat; 1%nat; 2%nat].
Proof. split; reflexivity. Qed.

(** * Further properties of the two classes *)

(** ** The lifecycle: [open], [close], [isOpen] *)

Section Lifecycle.
Context {Time T W : Type}.
Variable tsub : Time → Time → Time.
Variable now : nat → Time.

Local Abbreviation BState := (Sys (Batched.Log Time T W) Time T W).
Local Abbreviation SState := (Sys (Simple.Log T W) Time T W).

(** X1.  [open()] on an open log and [close()] on a closed log throw their
    own message and write nothing.  Otherwise they return, and the only
    things that change are the open flag and the caller's world, on which
    the hook, if there is one, has been called once: the commits, the
    transactions, the buffer, the stores, the clock and the timers are as
    before. *)
Theorem open_close_guards (sb : BState) (ss : SState) :
  (Batched.p_open (this sb) = true →
     fails_with Batched.open LOG_ALREADY_OPEN_MESSAGE sb
     ∧ Batched.close sb
       = (Ok tt, after_set_open false (onclose (Batched.p_callbacks (this sb))) sb))
  ∧ (Batched.p_open (this sb) = false →
       fails_with Batched.close LOG_ALREADY_CLOSED_MESSAGE sb
       ∧ Batched.open sb
         = (Ok tt, after_set_open true (onopen (Batched.p_callbacks (this sb))) sb))
  ∧ (Simple.p_open (this ss) = true →
       fails_with Simple.open LOG_ALREADY_OPEN_MESSAGE ss
       ∧ Simple.close ss
         = (Ok tt, simple_after_set_open false
                     (s_onclose (Simple.p_callbacks (this ss))) ss))
  ∧ (Simple.p_open (this ss) = false →
       fails_with Simple.close LOG_ALREADY_CLOSED_MESSAGE ss
       ∧ Simple.open ss
         = (Ok tt, simple_after_set_open true
                     (s_onopen (Simple.p_callbacks (this ss))) ss)).
Proof.
  repeat split.
  - by apply open_open.
  - by apply close_open.
  - by apply close_closed.
  - by apply open_closed.
  - by apply simple_open_open.
  - by apply simple_close_open.
  - by apply simple_close_closed.
  - by apply simple_open_closed.
Qed.

(** X2.  Whatever the state and whether the call returns or throws, the log
    is open after [open()] and closed after [close()], and [isOpen()] says
    so: it returns the flag, never throws and writes nothing. *)
Theorem isOpen_after_open_close (sb : BState) (ss : SState) :
  returns Batched.isOpen (Batched.p_open (this sb)) sb
  ∧ returns Batched.isOpen true (Batched.exec tsub now Batched.OpOpen sb)
  ∧ returns Batched.isOpen false (Batched.exec tsub now Batched.OpClose sb)
  ∧ returns Simple.isOpen (Simple.p_open (this ss)) ss
  ∧ returns Simple.isOpen true (Simple.exec tsub now Simple.OpOpen ss)
  ∧ returns Simple.isOpen false (Simple.exec tsub now Simple.OpClose ss).
Proof.
  unfold returns, Batched.isOpen, Simple.isOpen, Batched.field, Simple.field, gets.
  split; [done|]. split; [|split; [|split; [done|split]]]; simpl.
  - destruct (Batched.p_open (this sb)) eqn:Ho.
    + rewrite (open_open sb Ho). simpl. by rewrite Ho.
    + by rewrite (open_closed sb Ho).
  - destruct (Batched.p_open (this sb)) eqn:Ho.
    + by rewrite (close_open sb Ho).
    + rewrite (close_closed sb Ho). simpl. by rewrite Ho.
  - destruct (Simple.p_open (this ss)) eqn:Ho.
    + rewrite (simple_open_open ss Ho). simpl. by rewrite Ho.
    + by rewrite (simple_open_closed ss Ho).
  - destruct (Simple.p_open (this ss)) eqn:Ho.
    + by rewrite (simple_close_open ss Ho).
    + rewrite (simple_close_closed ss Ho). simpl. by rewrite Ho.
Qed.


End Lifecycle.

(** ** What the range queries read *)

Lemma slice_app_within {A} (arr extra : list A) (startId f : Z) :
  1 ≤ startId → 0 ≤ f ≤ Z.of_nat (length arr) →
  JS.slice (arr ++ extra) (startId - 1) (Some f) = JS.slice arr (startId - 1) (Some f).
Proof.
  intros Hs Hf. rewrite !slice_from_to by lia.
  destruct (Z.le_gt_cases startId f) as [Hle|Hgt].
  - rewrite drop_app_le by lia. apply take_app_le. rewrite length_drop. lia.
  - by replace (Z.to_nat (f - (startId - 1))) with 0%nat by lia.
Qed.

Section BatchedReads.
Context {Time T W : Type}.
Variable tsub : Time → Time → Time.
Variable now : nat → Time.

Local Abbreviation State := (Sys (Batched.Log Time T W) Time T W).

(** The function mapped over the slice, as a case analysis. *)
Lemma commit_info_cases (s : State) (c : loc) :
  Batched.commit_info c s
  = (if JS.indexOf (Batched.p_commits (this s)) c + 1 =? 0
     then Throw (JsError INVALID_COMMIT_MESSAGE)
     else match commit_store (runtime s) !! c with
          | Some obj =>
              Ok (mkCommitInfo (JS.indexOf (Batched.p_commits (this s)) c + 1)
                    (commit_time obj)
                    (map (λ tid, JS.index (Batched.p_transactions (this s)) (tid - 1))
                         (commit_transactions obj)))
          | None => Throw TypeError
          end, s).
Proof.
  unfold Batched.commit_info, Batched.field, read_Commit. unfold_M.
  destruct (_ =? 0); [done|]. simpl.
  by destruct (commit_store (runtime s) !! c).
Qed.

(** It writes nothing, and what it returns is decided by [#commits],
    [#transactions] and the [Commit] objects. *)
Lemma commit_info_reads (s s' : State) (c : loc) :
  Batched.p_commits (this s') = Batched.p_commits (this s) →
  Batched.p_transactions (this s') = Batched.p_transactions (this s) →
  commit_store (runtime s') = commit_store (runtime s) →
  snd (Batched.commit_info c s) = s
  ∧ fst (Batched.commit_info c s') = fst (Batched.commit_info c s).
Proof.
  intros Hc Ht Hcs. rewrite !commit_info_cases. simpl.
  by rewrite Hc, Ht, Hcs.
Qed.

Lemma mapM_commit_info_reads (s s' : State) (arr : list loc) :
  Batched.p_commits (this s') = Batched.p_commits (this s) →
  Batched.p_transactions (this s') = Batched.p_transactions (this s) →
  commit_store (runtime s') = commit_store (runtime s) →
  snd (mapM Batched.commit_info arr s) = s
  ∧ fst (mapM Batched.commit_info arr s') = fst (mapM Batched.commit_info arr s).
Proof.
  intros Hc Ht Hcs. induction arr as [|c arr [IH1 IH2]]; [done|].
  cbn [mapM]. unfold mbind, M_bind, bind.
  destruct (commit_info_reads s s' c Hc Ht Hcs) as [H1 H2].
  destruct (commit_info_reads s' s c) as [H1' _]; try done.
  destruct (Batched.commit_info c s) as [r1 s1] eqn:E1.
  destruct (Batched.commit_info c s') as [r1' s1'] eqn:E1'.
  simpl in *. subst s1 s1' r1'.
  destruct r1 as [info|e]; [|done].
  assert (snd (mapM Batched.commit_info arr s') = s') as IH1'.
  { clear -Hc Ht Hcs. induction arr as [|c arr IH]; [done|].
    cbn [mapM]. unfold mbind, M_bind, bind.
    destruct (commit_info_reads s' s' c) as [H1 _]; try done.
    destruct (Batched.commit_info c s') as [r1 s1]. simpl in H1. subst s1.
    destruct r1; [|done].
    destruct (mapM Batched.commit_info arr s') as [r2 s2]. simpl in IH. subst s2.
    by destruct r2. }
  destruct (mapM Batched.commit_info arr s) as [r2 s2].
  destruct (mapM Batched.commit_info arr s') as [r2' s2'].
  simpl in *. subst. by destruct r2.
Qed.

Lemma getSeqRangeCommits_open_invalid (s : State) (startId : Z) (finishId : option Z) :
  Batched.p_open (this s) = true →
  startId < 1 →
  Batched.getSeqRangeCommits startId finishId s
  = (Throw (JsError INVALID_SEQUENCE_ID_MESSAGE), s).
Proof.
  intros Ho Hs. unfold Batched.getSeqRangeCommits, Batched.field. unfold_M.
  rewrite Ho. simpl. by destruct (Z.ltb_spec startId 1); [|lia].
Qed.

Lemma getSeqRangeCommits_reads (s s' : State) (startId : Z) (finishId : option Z) :
  Batched.p_open (this s') = Batched.p_open (this s) →
  Batched.p_commits (this s') = Batched.p_commits (this s) →
  Batched.p_transactions (this s') = Batched.p_transactions (this s) →
  commit_store (runtime s') = commit_store (runtime s) →
  fst (Batched.getSeqRangeCommits startId finishId s')
  = fst (Batched.getSeqRangeCommits startId finishId s).
Proof.
  intros Ho Hc Ht Hcs.
  destruct (Batched.p_open (this s)) eqn:Ho'.
  - destruct (Z.lt_ge_cases startId 1) as [Hs|Hs].
    + by rewrite !getSeqRangeCommits_open_invalid.
    + rewrite !getSeqRangeCommits_open by (done || lia). rewrite Hc.
      by apply mapM_commit_info_reads.
  - unfold Batched.getSeqRangeCommits, Batched.field. unfold_M. cbn beta.
    by rewrite Ho, Ho'.
Qed.

(** X4.  On an open batched log [append(data)] returns after pushing on the
    buffer a reference to a new record, which holds [data] and the clock
    reading; the transaction is not committed: the two counts and the
    results of both range queries, for every range, are what they were
    before the call. *)
Theorem append_is_buffered (s : State) (data : T) :
  Batched.p_open (this s) = true →
  ∃ s' l,
    Batched.append now data s = (Ok tt, s')
    ∧ Batched.p_buffer (this s') = Batched.p_buffer (this s) ++ [l]
    ∧ txn_store (runtime s) !! l = None
    ∧ txn_store (runtime s') !! l
      = Some (mkTransaction (now (ticks (runtime s))) data)
    ∧ fst (Batched.countCommits s') = fst (Batched.countCommits s)
    ∧ fst (Batched.countTransactions s') = fst (Batched.countTransactions s)
    ∧ (∀ startId finishId,
         fst (Batched.getSeqRangeTransactions startId finishId s')
         = fst (Batched.getSeqRangeTransactions startId finishId s))
    ∧ (∀ startId finishId,
         fst (Batched.getSeqRangeCommits startId finishId s')
         = fst (Batched.getSeqRangeCommits startId finishId s)).
Proof.
  intros Ho. exists (after_append now data s), (length (txn_store (runtime s))).
  split; [by apply append_open|]. split; [done|].
  split; [by apply lookup_ge_None_2|].
  split; [simpl; by rewrite lookup_app_r, Nat.sub_diag by lia|].
  split; [|split; [|split]].
  - unfold Batched.countCommits, Batched.field. unfold_M. simpl. by rewrite Ho.
  - unfold Batched.countTransactions, Batched.field. unfold_M. simpl. by rewrite Ho.
  - intros startId finishId.
    unfold Batched.getSeqRangeTransactions, Batched.field. unfold_M. simpl.
    rewrite Ho. simpl. destruct (_ <? 1); [done|]. by destruct (JS.truthy _).
  - intros startId finishId. by apply getSeqRangeCommits_reads.
Qed.

(** X5.  On an open batched log [getSeqRangeCommits] throws
    [INVALID_SEQUENCE_ID_MESSAGE] for a start id below 1, whatever the
    finish id, and writes nothing. *)
Theorem getSeqRangeCommits_invalid_start (s : State) (startId : Z) (finishId : option Z) :
  Batched.p_open (this s) = true →
  startId < 1 →
  fails_with (Batched.getSeqRangeCommits startId finishId) INVALID_SEQUENCE_ID_MESSAGE s.
Proof.
  intros Ho Hs. by apply getSeqRangeCommits_open_invalid.
Qed.

End BatchedReads.

(** ** More on the ranges *)

Lemma slice_negative_finish {A} (arr : list A) (startId f : Z) :
  1 ≤ startId → f < 0 →
  JS.slice arr (startId - 1) (Some f)
  = entries_in_range arr startId (Some (Z.of_nat (length arr) + f)).
Proof.
  intros Hs Hf. unfold entries_in_range. rewrite select_ids_from_to by lia.
  unfold JS.slice, JS.clamp.
  destruct (Z.ltb_spec (startId - 1) 0); [lia|].
  destruct (Z.ltb_spec f 0); [|lia].
  replace (startId - 1) with (startId - 1 + 0) at 3 by lia.
  destruct (Z.le_gt_cases (startId - 1) (Z.of_nat (length arr))).
  - rewrite Z.min_l by lia. rewrite Z.add_0_r.
    f_equal. lia.
  - rewrite Z.min_r by lia. rewrite Nat2Z.id, drop_all, Z.add_0_r.
    rewrite drop_ge by lia. by rewrite !take_nil.
Qed.

Lemma slice_lookup {A} (arr : list A) (startId f id : Z) :
  1 ≤ startId → startId ≤ id ≤ f →
  JS.slice arr (startId - 1) (Some f) !! Z.to_nat (id - startId)
  = arr !! Z.to_nat (id - 1).
Proof.
  intros Hs Hid. rewrite slice_from_to by lia.
  rewrite lookup_take_lt by lia. rewrite lookup_drop. f_equal. lia.
Qed.

Lemma slice_length {A} (arr : list A) (startId f : Z) :
  1 ≤ startId → 0 ≤ f →
  Z.of_nat (length (JS.slice arr (startId - 1) (Some f)))
  = Z.max 0 (Z.min f (Z.of_nat (length arr)) - startId + 1).
Proof.
  intros Hs Hf. rewrite slice_from_to by lia.
  rewrite length_take, length_drop. lia.
Qed.

Section MoreRanges.
Context {Time T W : Type}.
Variable tsub : Time → Time → Time.
Variable now : nat → Time.

Local Abbreviation BState := (Sys (Batched.Log Time T W) Time T W).
Local Abbreviation SState := (Sys (Simple.Log T W) Time T W).

(** X6.  On an open log of either class, for a start id of at least 1, a
    negative finish id [f] counts from the end of the collection:
    [getSeqRangeTransactions] returns the transactions with the ids from the
    start id to [length + f], that is all but the last [-f] of those from
    the start id on, and writes nothing. *)
Theorem negative_finish_counts_from_end
    (sb : BState) (ss : SState) (startId f : Z) :
  1 ≤ startId → f < 0 →
  (Batched.p_open (this sb) = true →
     returns (Batched.getSeqRangeTransactions startId (Some f))
             (entries_in_range (Batched.p_transactions (this sb)) startId
                (Some (Z.of_nat (length (Batched.p_transactions (this sb))) + f)))
             sb)
  ∧ (Simple.p_open (this ss) = true →
       returns (Simple.getSeqRangeTransactions startId (Some f))
               (entries_in_range (Simple.p_transactions (this ss)) startId
                  (Some (Z.of_nat (length (Simple.p_transactions (this ss))) + f)))
               ss).
Proof.
  intros Hs Hf.
  assert (JS.truthy (Some f) = true) as Htr.
  { simpl. by destruct (Z.eqb_spec f 0); [lia|]. }
  split; intros Ho.
  - pose proof (shared_range_open Batched.p_open Batched.p_transactions
                  sb startId (Some f) Ho Hs) as H.
    rewrite Htr, slice_negative_finish in H by done. by rewrite batched_range_shared.
  - pose proof (shared_range_open Simple.p_open Simple.p_transactions
                  ss startId (Some f) Ho Hs) as H.
    rewrite Htr, slice_negative_finish in H by done. by rewrite simple_range_shared.
Qed.

(** X7.  On an open log of either class, for [1 ≤ startId] and a finish id
    of at least 1, [getSeqRangeTransactions] returns a list in which the
    transaction with the id [id], for every id of the range, sits at the
    position [id - startId]; the list has as many entries as there are ids
    from the start id to the smaller of the finish id and the number of
    transactions.  In particular [getSeqRangeTransactions(k, k)] is the one
    transaction with the id [k]. *)
Theorem range_positions (sb : BState) (ss : SState) (startId f : Z) :
  1 ≤ startId → 1 ≤ f →
  (Batched.p_open (this sb) = true →
     ∃ r, returns (Batched.getSeqRangeTransactions startId (Some f)) r sb
        ∧ Z.of_nat (length r)
          = Z.max 0 (Z.min f (Z.of_nat (length (Batched.p_transactions (this sb))))
                     - startId + 1)
        ∧ ∀ id, startId ≤ id ≤ f →
            r !! Z.to_nat (id - startId)
            = Batched.p_transactions (this sb) !! Z.to_nat (id - 1))
  ∧ (Simple.p_open (this ss) = true →
       ∃ r, returns (Simple.getSeqRangeTransactions startId (Some f)) r ss
          ∧ Z.of_nat (length r)
            = Z.max 0 (Z.min f (Z.of_nat (length (Simple.p_transactions (this ss))))
                       - startId + 1)
          ∧ ∀ id, startId ≤ id ≤ f →
              r !! Z.to_nat (id - startId)
              = Simple.p_transactions (this ss) !! Z.to_nat (id - 1)).
Proof.
  intros Hs Hf.
  assert (JS.truthy (Some f) = true) as Htr.
  { simpl. by destruct (Z.eqb_spec f 0); [lia|]. }
  split; intros Ho.
  - pose proof (shared_range_open Batched.p_open Batched.p_transactions
                  sb startId (Some f) Ho Hs) as H.
    rewrite Htr in H. eexists. split; [by rewrite batched_range_shared|].
    split; [apply slice_length; lia|]. intros id Hid. by apply slice_lookup.
  - pose proof (shared_range_open Simple.p_open Simple.p_transactions
                  ss startId (Some f) Ho Hs) as H.
    rewrite Htr in H. eexists. split; [by rewrite simple_range_shared|].
    split; [apply slice_length; lia|]. intros id Hid. by apply slice_lookup.
Qed.

End MoreRanges.

(** ** Commits partition the committed transactions *)

Section Partition.
Context {Time T W : Type}.
Variable tsub : Time → Time → Time.
Variable now : nat → Time.

Local Abbreviation State := (Sys (Batched.Log Time T W) Time T W).

(** A call either is a [commit()] that moves a non-empty buffer, or clears
    the log, or leaves the commits, the transactions and the [Commit]
    objects alone. *)
Lemma exec_commit_or_not (op : Batched.Op) (s : State) :
  (Batched.p_buffer (this s) ≠ [] ∧ Batched.exec tsub now op s = after_commit now s)
  ∨ (Batched.exec tsub now op s = after_clear s)
  ∨ (Batched.p_commits (this (Batched.exec tsub now op s)) = Batched.p_commits (this s)
     ∧ Batched.p_transactions (this (Batched.exec tsub now op s))
       = Batched.p_transactions (this s)
     ∧ commit_store (runtime (Batched.exec tsub now op s)) = commit_store (runtime s)).
Proof.
  assert (∀ s' : State, same_log s s' →
            Batched.p_commits (this s') = Batched.p_commits (this s)
            ∧ Batched.p_transactions (this s') = Batched.p_transactions (this s)
            ∧ commit_store (runtime s') = commit_store (runtime s)) as Hsame.
  { intros s' (Ht & _ & Hc). by rewrite Ht, Hc. }
  destruct op; simpl.
  - right; right. done.
  - right; right. destruct (Batched.p_open (this s)) eqn:Ho.
    + by rewrite (open_open s Ho).
    + by rewrite (open_closed s Ho).
  - right; right. destruct (Batched.p_open (this s)) eqn:Ho.
    + by rewrite (close_open s Ho).
    + by rewrite (close_closed s Ho).
  - destruct (Batched.p_open (this s)) eqn:Ho.
    + right; right. by rewrite (clear_open s Ho).
    + right; left. by rewrite (clear_closed s Ho).
  - destruct (Batched.p_open (this s)) eqn:Ho.
    + destruct (decide (Batched.p_buffer (this s) = [])) as [Hb|Hb].
      * right; right. by rewrite (commit_open_empty now s Ho Hb).
      * left. by rewrite (commit_open_nonempty now s Ho Hb).
    + right; right.
      by destruct (batched_closed_rejects tsub now s Ho) as (_ & -> & _).
  - right; right. destruct (Batched.p_open (this s)) eqn:Ho.
    + by rewrite (count_commits_open s Ho).
    + by destruct (batched_closed_rejects tsub now s Ho) as (_ & _ & -> & _).
  - right; right. destruct (Batched.p_open (this s)) eqn:Ho.
    + by rewrite (count_transactions_open s Ho).
    + by destruct (batched_closed_rejects tsub now s Ho) as (_ & _ & _ & -> & _).
  - right; right. destruct (Batched.p_open (this s)) eqn:Ho.
    + by rewrite (append_open now data s Ho).
    + by destruct (batched_closed_rejects tsub now s Ho) as (-> & _).
  - right; right. apply Hsame.
    rewrite batched_replay_shared. apply keeps_log_shared_replay.
  - right; right. apply Hsame. apply keeps_log_getSeqRangeCommits.
  - right; right. apply Hsame.
    rewrite batched_range_shared. apply keeps_log_shared_range.
Qed.

Lemma partitioned_exec (op : Batched.Op) (s : State) :
  partitioned s → partitioned (Batched.exec tsub now op s).
Proof.
  intros (objs & Hobjs & Hcat & Hne).
  destruct (exec_commit_or_not op s) as [[Hb ->]|[->|(Hc & Ht & Hcs)]].
  - exists (objs ++ [commit_object now s]). split; [|split].
    + unfold commits_of in *. simpl. apply Forall2_app.
      * eapply Forall2_impl; [done|]. intros c obj Hl. by apply lookup_app_l_Some.
      * constructor; [|constructor].
        rewrite lookup_app_r by (apply Forall2_length in Hobjs; lia).
        by rewrite Nat.sub_diag.
    + rewrite fmap_app, concat_app, Hcat. simpl. rewrite app_nil_r, length_app.
      rewrite Nat2Z.inj_add, (seqZ_app 1) by lia. f_equal. f_equal. lia.
    + apply Forall_app. split; [done|]. apply Forall_singleton. simpl.
      intros Hnil%(f_equal length). rewrite length_seqZ in Hnil. simpl in Hnil.
      destruct (Batched.p_buffer (this s)); [done|simpl in Hnil; lia].
  - exists []. split; [constructor|]. split; [done|constructor].
  - exists objs. unfold commits_of. rewrite Hc, Ht, Hcs. done.
Qed.

Lemma partitioned_initial (s : State) : Batched.initial s → partitioned s.
Proof.
  intros [cbs H]. exists []. unfold commits_of. rewrite H. simpl.
  split; [constructor|]. split; [done|constructor].
Qed.

Lemma reachable_partitioned (s : State) :
  Batched.reachable tsub now s → partitioned s.
Proof.
  induction 1 as [s Hi|s op _ IH];
    [by apply partitioned_initial|by apply partitioned_exec].
Qed.

(** X8.  In every reachable state of the batched log the commits partition
    the committed transactions: the id lists of the commits, taken in commit
    order, list the ids [1 .. countTransactions], each once and in ascending
    order; no commit is empty, and so there are never more commits than
    committed transactions. *)
Theorem commits_partition_transactions (s : State) :
  Batched.reachable tsub now s →
  partitioned s
  ∧ (length (Batched.p_commits (this s))
     ≤ length (Batched.p_transactions (this s)))%nat.
Proof.
  intros Hp%reachable_partitioned.
  split; [done|].
  destruct Hp as (objs & Hobjs & Hcat & Hne).
  apply Forall2_length in Hobjs. rewrite Hobjs.
  apply (f_equal length) in Hcat. rewrite length_seqZ, Nat2Z.id in Hcat.
  rewrite <- Hcat.
  generalize dependent Hne. clear. intros Hne.
  induction Hne as [|obj objs Hobj _ IH]; [simpl; lia|].
  rewrite fmap_cons. cbn [concat]. rewrite length_app.
  destruct (commit_transactions obj); [done|]. cbn [length]. lia.
Qed.

(** In a well-formed state that is partitioned by [objs], [mapM] over all of
    [#commits] returns one record per commit, whose transactions are the
    references at the positions that the commit lists. *)
Lemma mapM_commit_info_all (s : State) (objs : list (Commit Time)) :
  commits_of s objs →
  ∃ infos,
    mapM Batched.commit_info (Batched.p_commits (this s)) s = (Ok infos, s)
    ∧ Forall2 (λ obj info,
         ci_transactions info
         = (λ tid, JS.index (Batched.p_transactions (this s)) (tid - 1))
             <$> commit_transactions obj) objs infos.
Proof.
  intros Hobjs. apply mapM_Forall2.
  apply Forall2_same_length_lookup_2; [symmetry; by eapply Forall2_length|].
  intros i obj c Hobj Hc.
  pose proof (Forall2_lookup_lr _ _ _ _ _ _ Hobjs Hc Hobj) as Hl. cbn beta in Hl.
  rewrite commit_info_cases, Hl.
  pose proof (indexOf_from_found (Batched.p_commits (this s)) c 0
                (list_elem_of_lookup_2 _ _ _ Hc)) as Hfound.
  unfold JS.indexOf.
  destruct (Z.eqb_spec (JS.indexOf_from (Batched.p_commits (this s)) c 0 + 1) 0);
    [lia|].
  by eexists.
Qed.

(** X9.  On an open batched log in a reachable state,
    [getSeqRangeCommits(1)] returns every commit, with the ids
    [1 .. countCommits] in order, and the transactions of these commits, one
    list after the other, are exactly what [getSeqRangeTransactions(1)]
    returns: every committed transaction, once, in id order. *)
Theorem commits_flatten_to_transactions (s : State) :
  Batched.reachable tsub now s →
  Batched.p_open (this s) = true →
  ∃ infos txns,
    returns (Batched.getSeqRangeCommits 1 None) infos s
    ∧ returns (Batched.getSeqRangeTransactions 1 None) txns s
    ∧ txns = Batched.p_transactions (this s)
    ∧ ci_id <$> infos = seqZ 1 (Z.of_nat (length (Batched.p_commits (this s))))
    ∧ concat (ci_transactions <$> infos) = Some <$> txns.
Proof.
  intros Hreach Ho.
  destruct (reachable_partitioned s Hreach) as (objs & Hobjs & Hcat & _).
  destruct (mapM_commit_info_all s objs Hobjs) as (infos & Hinfos & Htx).
  destruct (getSeqRangeCommits_wf s 1 None (reachable_wf tsub now s Hreach) Ho)
    as (infos' & Hret & Hdesc); [lia|done|].
  assert (Batched.getSeqRangeCommits 1 None s = (Ok infos, s)) as Hret'.
  { rewrite getSeqRangeCommits_open by (done || lia).
    cbn [JS.truthy]. rewrite slice_from by lia. done. }
  unfold returns in Hret. rewrite Hret' in Hret. injection Hret as <-.
  exists infos, (Batched.p_transactions (this s)).
  split; [done|]. split.
  { pose proof (shared_range_open Batched.p_open Batched.p_transactions
                  s 1 None Ho ltac:(lia)) as H.
    cbn [JS.truthy] in H. rewrite slice_from in H by lia.
    by rewrite batched_range_shared. }
  split; [done|]. split.
  - unfold ids_in_range, entries_in_range in Hdesc.
    rewrite select_ids_all in Hdesc by lia.
    apply list_eq_Forall2. apply Forall2_fmap_l, Forall2_flip.
    eapply Forall2_impl; [done|]. by intros id info [-> _].
  - assert (ci_transactions <$> infos
            = (λ obj, (λ tid, JS.index (Batched.p_transactions (this s)) (tid - 1))
                        <$> commit_transactions obj) <$> objs) as ->.
    { apply list_eq_Forall2. apply Forall2_fmap_l, Forall2_fmap_r, Forall2_flip.
      exact Htx. }
    rewrite <- resolve_all_ids, <- Hcat. clear.
    induction objs as [|obj objs IH]; [done|].
    rewrite !fmap_cons. cbn [concat]. by rewrite fmap_app, IH.
Qed.

End Partition.

(** ** Every reference is held once *)

Section Distinct.
Context {Time T W : Type}.
Variable tsub : Time → Time → Time.
Variable now : nat → Time.

Local Abbreviation BState := (Sys (Batched.Log Time T W) Time T W).
Local Abbreviation SState := (Sys (Simple.Log T W) Time T W).

Lemma NoDup_snoc_fresh {A} (ts : list A) (arr : list loc) :
  Forall (λ l, is_Some (ts !! l)) arr → NoDup arr → NoDup (arr ++ [length ts]).
Proof.
  intros Hrec Hnd. apply NoDup_app. split; [done|]. split; [|apply NoDup_singleton].
  intros l Hl ->%list_elem_of_singleton.
  rewrite Forall_forall in Hrec. destruct (Hrec _ Hl) as [x Hx%lookup_lt_Some]. lia.
Qed.

Lemma batched_distinct_exec (op : Batched.Op) (s : BState) :
  Batched.records_ok s →
  NoDup (Batched.p_transactions (this s) ++ Batched.p_buffer (this s)) →
  NoDup (Batched.p_transactions (this (Batched.exec tsub now op s))
         ++ Batched.p_buffer (this (Batched.exec tsub now op s))).
Proof.
  intros Hrec Hnd.
  destruct (exec_shape tsub now op s)
    as [(Ht & _ & _)|[(b & hook & ->)|[->|[[data ->]| ->]]]].
  - by rewrite Ht.
  - done.
  - apply NoDup_nil_2.
  - simpl. rewrite app_assoc. by apply NoDup_snoc_fresh.
  - simpl. by rewrite app_nil_r.
Qed.

Lemma simple_distinct_exec (op : Simple.Op) (s : SState) :
  Simple.records_ok s →
  NoDup (Simple.p_transactions (this s)) →
  NoDup (Simple.p_transactions (this (Simple.exec tsub now op s))).
Proof.
  intros Hrec Hnd.
  destruct (simple_exec_shape tsub now op s)
    as [(Ht & _ & _)|[(b & hook & ->)|[->|[data ->]]]].
  - by rewrite Ht.
  - done.
  - apply NoDup_nil_2.
  - simpl. by apply NoDup_snoc_fresh.
Qed.

(** X10.  In every reachable state no record is held twice: the references
    in [#transactions] and in the buffer of the batched log, taken together,
    are pairwise distinct, and so are those in [#transactions] of the simple
    log.  A transaction is never committed twice, nor committed and still
    buffered. *)
Theorem references_distinct (sb : BState) (ss : SState) :
  (Batched.reachable tsub now sb →
     NoDup (Batched.p_transactions (this sb) ++ Batched.p_buffer (this sb)))
  ∧ (Simple.reachable tsub now ss → NoDup (Simple.p_transactions (this ss))).
Proof.
  split.
  - induction 1 as [s [cbs Hi]|s op Hreach IH].
    + rewrite Hi. apply NoDup_nil_2.
    + apply batched_distinct_exec; [|done].
      by destruct (reachable_wf tsub now s Hreach) as (_ & _ & ?).
  - induction 1 as [s [cbs Hi]|s op Hreach IH].
    + rewrite Hi. apply NoDup_nil_2.
    + apply simple_distinct_exec; [|done].
      by apply (simple_reachable_records_ok tsub now).
Qed.

End Distinct.

(** ** Appends and what the queries return afterwards *)

Lemma resolve_ids_suffix {A} (pre arr : list A) :
  (λ tid, JS.index (pre ++ arr) (tid - 1))
    <$> seqZ (Z.of_nat (length pre) + 1) (Z.of_nat (length arr))
  = Some <$> arr.
Proof.
  apply list_eq. intros i. rewrite !list_lookup_fmap.
  destruct (decide (i < length arr)%nat) as [Hi|Hi].
  - rewrite lookup_seqZ_lt by lia. simpl.
    replace (Z.of_nat (length pre) + 1 + Z.of_nat i - 1)
      with (Z.of_nat (length pre + i)) by lia.
    rewrite index_of_nat, lookup_app_r by lia.
    replace (length pre + i - length pre)%nat with i by lia.
    destruct (lookup_lt_is_Some_2 arr i Hi) as [x Hx]. by rewrite Hx.
  - rewrite lookup_seqZ_ge by lia. by rewrite lookup_ge_None_2 by lia.
Qed.

Section AppendsThenQuery.
Context {Time T W : Type}.
Variable tsub : Time → Time → Time.
Variable now : nat → Time.

Local Abbreviation BState := (Sys (Batched.Log Time T W) Time T W).
Local Abbreviation SState := (Sys (Simple.Log T W) Time T W).

(** X11.  On an open batched log in a reachable state with [C] commits, [N]
    committed transactions and a buffer [buf], appending the data [ds] (at
    least one) and committing gives [C + 1] commits and
    [N + length buf + length ds] transactions; [getSeqRangeCommits(C + 1)]
    returns the one new commit, with the id [C + 1] and as transactions the
    buffered references followed by one new reference per datum, holding
    the data in the order of the appends, and
    [getSeqRangeTransactions(N + 1)] returns the same references. *)
Theorem appends_then_commit (s : BState) (ds : list T) :
  Batched.reachable tsub now s →
  Batched.p_open (this s) = true →
  ds ≠ [] →
  let C := Z.of_nat (length (Batched.p_commits (this s))) in
  let N := Z.of_nat (length (Batched.p_transactions (this s))) in
  let buf := Batched.p_buffer (this s) in
  let s3 := Batched.run tsub now ((Batched.OpAppend <$> ds) ++ [Batched.OpCommit]) s in
  ∃ locs time,
    holds (txn_store (runtime s3)) ds locs
    ∧ returns Batched.countCommits (C + 1) s3
    ∧ returns Batched.countTransactions
              (N + Z.of_nat (length buf) + Z.of_nat (length ds)) s3
    ∧ returns (Batched.getSeqRangeCommits (C + 1) None)
              [mkCommitInfo (C + 1) time (Some <$> (buf ++ locs))] s3
    ∧ returns (Batched.getSeqRangeTransactions (N + 1) None) (buf ++ locs) s3.
Proof.
  intros Hreach Ho Hds C N buf s3.
  assert (Batched.reachable tsub now s3) as Hreach3 by by apply reachable_run.
  destruct (batched_run_appends tsub now ds s Ho) as (locs & Hthis & Hcs & Hpre & Hdata).
  cbv zeta in *.
  set (s' := Batched.run tsub now (Batched.OpAppend <$> ds) s) in *.
  assert (length locs = length ds) as Hlen by (symmetry; by eapply Forall2_length).
  assert (s3 = after_commit now s') as Hs3.
  { unfold s3. rewrite batched_run_app. fold s'.
    cbn [Batched.run foldl Batched.exec].
    rewrite commit_open_nonempty; [done|by rewrite Hthis|].
    rewrite Hthis. simpl. intros [_ ->]%app_eq_nil. by destruct ds. }
  clearbody s3 s'. subst s3.
  destruct (reachable_wf tsub now _ Hreach3) as (_ & Hnd & _).
  assert (Batched.p_commits (this s') = Batched.p_commits (this s)) as Hc'
    by by rewrite Hthis.
  assert (Batched.p_transactions (this s') = Batched.p_transactions (this s)) as Ht'
    by by rewrite Hthis.
  assert (Batched.p_buffer (this s') = buf ++ locs) as Hb' by by rewrite Hthis.
  assert (Batched.p_open (this (after_commit now s')) = true) as Ho3
    by (simpl; by rewrite Hthis).
  assert (Batched.p_commits (this (after_commit now s'))
          = Batched.p_commits (this s) ++ [length (commit_store (runtime s))]) as Hc3
    by (simpl; by rewrite Hc', Hcs).
  assert (Batched.p_transactions (this (after_commit now s'))
          = Batched.p_transactions (this s) ++ (buf ++ locs)) as Ht3
    by (simpl; by rewrite Ht', Hb').
  exists locs, (commit_time (commit_object now s')).
  split; [done|]. split; [|split; [|split]].
  - pose proof (count_commits_open _ Ho3) as H. rewrite Hc3, length_app in H.
    simpl in H. unfold C.
    by replace (Z.of_nat (length (Batched.p_commits (this s))) + 1)
      with (Z.of_nat (length (Batched.p_commits (this s)) + 1)) by lia.
  - pose proof (count_transactions_open _ Ho3) as H.
    rewrite Ht3, !length_app, Hlen in H. unfold N, buf.
    by replace (Z.of_nat (length (Batched.p_transactions (this s)))
                + Z.of_nat (length (Batched.p_buffer (this s)))
                + Z.of_nat (length ds))
      with (Z.of_nat (length (Batched.p_transactions (this s))
                      + (length (Batched.p_buffer (this s)) + length ds))) by lia.
  - unfold returns. rewrite getSeqRangeCommits_open by (done || lia).
    cbn [JS.truthy]. rewrite slice_from by lia. rewrite Hc3.
    replace (Z.to_nat (C + 1 - 1)) with (length (Batched.p_commits (this s)))
      by (unfold C; lia).
    rewrite drop_app_length.
    cbn [mapM]. unfold mbind, M_bind, bind.
    rewrite (commit_info_at (after_commit now s') (length (commit_store (runtime s)))
               (length (Batched.p_commits (this s))) (commit_object now s')).
    + cbn [mapM mret M_ret ret]. rewrite Ht3.
      unfold commit_object at 2. cbn [commit_transactions].
      rewrite Ht', Hb'. by rewrite resolve_ids_suffix.
    + done.
    + by rewrite Hc3, lookup_app_r, Nat.sub_diag by lia.
    + simpl. by rewrite Hcs, lookup_app_r, Nat.sub_diag by lia.
  - pose proof (shared_range_open Batched.p_open Batched.p_transactions
                  (after_commit now s') (N + 1) None Ho3 ltac:(lia)) as H.
    cbn [JS.truthy] in H. rewrite slice_from in H by lia. rewrite Ht3 in H.
    replace (Z.to_nat (N + 1 - 1))
      with (length (Batched.p_transactions (this s))) in H by (unfold N; lia).
    rewrite drop_app_length in H. by rewrite batched_range_shared.
Qed.

(** X12.  On an open simple log with [N] transactions, appending the data
    [ds] gives [N + length ds] transactions; [getSeqRangeTransactions(N + 1)]
    returns one new reference per datum, holding the data in the order of
    the appends, and every range that ends at an id up to [N] returns what
    it returned before. *)
Theorem simple_appends_then_query (s : SState) (ds : list T) :
  Simple.p_open (this s) = true →
  let N := Z.of_nat (length (Simple.p_transactions (this s))) in
  let s3 := Simple.run tsub now (Simple.OpAppend <$> ds) s in
  ∃ locs,
    holds (txn_store (runtime s3)) ds locs
    ∧ returns Simple.countTransactions (N + Z.of_nat (length ds)) s3
    ∧ returns (Simple.getSeqRangeTransactions (N + 1) None) locs s3
    ∧ ∀ startId f, 1 ≤ startId → 1 ≤ f ≤ N →
        fst (Simple.getSeqRangeTransactions startId (Some f) s3)
        = fst (Simple.getSeqRangeTransactions startId (Some f) s).
Proof.
  intros Ho N s3.
  destruct (simple_run_appends tsub now ds s Ho) as (locs & Hthis & Hpre & Hdata).
  cbv zeta in *. fold s3 in Hthis, Hpre, Hdata. clearbody s3.
  assert (length locs = length ds) as Hlen by (symmetry; by eapply Forall2_length).
  exists locs. split; [done|]. split; [|split].
  - pose proof (simple_count_transactions_open s3) as H.
    rewrite Hthis in H. simpl in H. rewrite length_app, Hlen, Nat2Z.inj_add in H.
    by apply H.
  - pose proof (shared_range_open Simple.p_open Simple.p_transactions s3 (N + 1) None) as H.
    rewrite Hthis in H. specialize (H eq_refl ltac:(lia)).
    cbn [JS.truthy Simple.p_transactions] in H.
    rewrite slice_from in H by lia.
    replace (Z.to_nat (N + 1 - 1))
      with (length (Simple.p_transactions (this s))) in H by lia.
    rewrite drop_app_length in H. by rewrite simple_range_shared.
  - intros startId f Hs Hf.
    assert (JS.truthy (Some f) = true) as Htr.
    { simpl. by destruct (Z.eqb_spec f 0); [lia|]. }
    pose proof (shared_range_open Simple.p_open Simple.p_transactions
                  s3 startId (Some f)) as H3.
    rewrite Hthis in H3. specialize (H3 eq_refl Hs).
    pose proof (shared_range_open Simple.p_open Simple.p_transactions
                  s startId (Some f) Ho Hs) as H.
    rewrite Htr in H, H3. cbn [Simple.p_transactions] in H3.
    rewrite slice_app_within in H3 by lia.
    rewrite !simple_range_shared. unfold returns in H, H3. by rewrite H, H3.
Qed.

End AppendsThenQuery.

(** ** The clock and the timers of [replay] *)

Section ReplayTimers.
Context {L Time T W : Type}.
Variable tsub : Time → Time → Time.
Variable now : nat → Time.
Variable is_open : L → bool.
Variable txns_of : L → list loc.
Variable callback : T → W → W.

Local Abbreviation State := (Sys L Time T W).
Local Abbreviation visited w recs :=
  (foldl (λ (acc : W) (t : Transaction Time T), callback (txn_data t) acc) w recs).






End ReplayTimers.

Section ReplayTimersBoth.
Context {Time T W : Type}.
Variable tsub : Time → Time → Time.
Variable now : nat → Time.

Local Abbreviation BState := (Sys (Batched.Log Time T W) Time T W).
Local Abbreviation SState := (Sys (Simple.Log T W) Time T W).


(** X14.  On an open log of either class with no committed transaction,
    [replay] returns without calling the visitor, reading the clock or
    setting a timer, whatever [simulateTime] and whatever the buffer holds:
    the state after the call is the state before it. *)
Theorem replay_nothing_committed (sb : BState) (ss : SState)
    (callback : T → W → W) (simulateTime : option bool) :
  (Batched.p_open (this sb) = true → Batched.p_transactions (this sb) = [] →
     returns (Batched.replay tsub now callback simulateTime) tt sb)
  ∧ (Simple.p_open (this ss) = true → Simple.p_transactions (this ss) = [] →
       returns (Simple.replay tsub now callback simulateTime) tt ss).
Proof.
  split; intros Ho Ht.
  - unfold returns, Batched.replay, Batched.field. unfold_M.
    rewrite Ho. cbn [negb]. destruct (default false simulateTime); cbn beta;
      by rewrite Ht.
  - unfold returns, Simple.replay, Simple.field. unfold_M.
    rewrite Ho. cbn [negb]. destruct (default false simulateTime); cbn beta;
      by rewrite Ht.
Qed.

End ReplayTimersBoth.

(** ** Transactions are held in the order of their clock readings *)

Section TicksGrow.
Context {L Time T W : Type}.
Variable now : nat → Time.

Local Abbreviation State := (Sys L Time T W).

Lemma ticks_grow_ret {A} (a : A) : ticks_grow (mret a : M State A).
Proof. intros s. done. Qed.

Lemma ticks_grow_throw {A} (e : Error) : ticks_grow (throw e : M State A).
Proof. intros s. done. Qed.

Lemma ticks_grow_gets {A} (f : State → A) : ticks_grow (gets f).
Proof. intros s. done. Qed.

Lemma ticks_grow_with_this (f : L → L) : ticks_grow (modify (with_this f) : M State unit).
Proof. intros s. done. Qed.

Lemma ticks_grow_bind {A B} (m : M State A) (k : A → M State B) :
  ticks_grow m → (∀ a, ticks_grow (k a)) → ticks_grow (m ≫= k).
Proof.
  intros Hm Hk s. unfold mbind, M_bind, bind.
  specialize (Hm s). destruct (m s) as [[a|e] s']; simpl in *; [|done].
  specialize (Hk a s'). lia.
Qed.

Lemma ticks_grow_performance_now : ticks_grow (performance_now now : M State Time).
Proof. intros s. simpl. lia. Qed.

Lemma ticks_grow_setTimeout (delay : Time) : ticks_grow (setTimeout delay : M State unit).
Proof. intros s. done. Qed.

Lemma ticks_grow_call (f : W → W) : ticks_grow (call f : M State unit).
Proof. intros s. done. Qed.

Lemma ticks_grow_call_opt (hook : option (W → W)) :
  ticks_grow (call_opt hook : M State unit).
Proof. destruct hook; intros s; done. Qed.

Lemma ticks_grow_new_Transaction (txn : Transaction Time T) :
  ticks_grow (new_Transaction txn : M State loc).
Proof. intros s. done. Qed.

Lemma ticks_grow_new_Commit (c : Commit Time) :
  ticks_grow (new_Commit c : M State loc).
Proof. intros s. done. Qed.

Lemma ticks_grow_read_Transaction (v : option loc) :
  ticks_grow (read_Transaction v : M State (Transaction Time T)).
Proof. intros s. unfold read_Transaction. by destruct (v ≫= _). Qed.

Lemma ticks_grow_read_Commit (v : option loc) :
  ticks_grow (read_Commit v : M State (Commit Time)).
Proof. intros s. unfold read_Commit. by destruct (v ≫= _). Qed.

Lemma ticks_grow_mapM {A B} (f : A → M State B) (arr : list A) :
  (∀ x, ticks_grow (f x)) → ticks_grow (mapM f arr).
Proof.
  intros Hf. induction arr as [|x arr IH]; simpl.
  - apply ticks_grow_ret.
  - apply ticks_grow_bind; [apply Hf|]. intros y.
    apply ticks_grow_bind; [done|]. intros ys. apply ticks_grow_ret.
Qed.

Lemma ticks_grow_for_of {A} (arr : list A) (body : A → M State unit) :
  (∀ x, ticks_grow (body x)) → ticks_grow (for_of arr body).
Proof.
  intros Hbody. induction arr as [|x arr IH]; simpl.
  - apply ticks_grow_ret.
  - apply ticks_grow_bind; [apply Hbody|done].
Qed.

Lemma ticks_grow_for_count (n i : nat) (body : nat → M State unit) :
  (∀ j, ticks_grow (body j)) → ticks_grow (for_count n i body).
Proof.
  intros Hbody. revert i. induction n as [|n IH]; intros i; simpl.
  - apply ticks_grow_ret.
  - apply ticks_grow_bind; [apply Hbody|done].
Qed.

End TicksGrow.

Create HintDb ticks.

#[local] Hint Resolve ticks_grow_ret ticks_grow_throw ticks_grow_gets
  ticks_grow_with_this ticks_grow_performance_now ticks_grow_setTimeout
  ticks_grow_call ticks_grow_call_opt ticks_grow_new_Transaction
  ticks_grow_new_Commit ticks_grow_read_Transaction ticks_grow_read_Commit : ticks.

Ltac ticks_grow_step :=
  first
    [ apply ticks_grow_bind; [|intros ?]
    | apply ticks_grow_for_of; intros ?
    | apply ticks_grow_for_count; intros ?
    | apply ticks_grow_mapM; intros ?
    | solve [auto with ticks]
    | match goal with
      | |- ticks_grow (match ?x with _ => _ end) => destruct x
      | |- ticks_grow (if ?b then _ else _) => destruct b
      end ].

Section ClockOrder.
Context {Time T W : Type}.
Variable tsub : Time → Time → Time.
Variable now : nat → Time.

Local Abbreviation BState := (Sys (Batched.Log Time T W) Time T W).
Local Abbreviation SState := (Sys (Simple.Log T W) Time T W).

Lemma batched_exec_ticks (op : Batched.Op) (s : BState) :
  (ticks (runtime s) ≤ ticks (runtime (Batched.exec tsub now op s)))%nat.
Proof.
  assert (∀ A (m : M BState A), ticks_grow m →
            (ticks (runtime s) ≤ ticks (runtime (snd (m s))))%nat) as H by auto.
  destruct op; cbn [Batched.exec]; apply H;
    unfold Batched.isOpen, Batched.open, Batched.close, Batched.clear, Batched.commit,
      Batched.countCommits, Batched.countTransactions, Batched.append, Batched.replay,
      Batched.replay_timed_round, Batched.getSeqRangeCommits, Batched.commit_info,
      Batched.getSeqRangeTransactions, Batched.field, Batched.set_open,
      Batched.set_commits, Batched.set_transactions, Batched.set_buffer;
    repeat ticks_grow_step.
Qed.

Lemma simple_exec_ticks (op : Simple.Op) (s : SState) :
  (ticks (runtime s) ≤ ticks (runtime (Simple.exec tsub now op s)))%nat.
Proof.
  assert (∀ A (m : M SState A), ticks_grow m →
            (ticks (runtime s) ≤ ticks (runtime (snd (m s))))%nat) as H by auto.
  destruct op; cbn [Simple.exec]; apply H;
    unfold Simple.isOpen, Simple.open, Simple.close, Simple.clear,
      Simple.countTransactions, Simple.append, Simple.replay,
      Simple.replay_timed_round, Simple.getSeqRangeTransactions, Simple.field,
      Simple.set_open, Simple.set_transactions;
    repeat ticks_grow_step.
Qed.

Lemma stamped_grows (ts ts' : list (Transaction Time T)) (tk tk' : nat) arr :
  ts `prefix_of` ts' → (tk ≤ tk')%nat →
  stamped now ts tk arr → stamped now ts' tk' arr.
Proof.
  intros Hpre Htk (ks & Hks & Hord & Hlt). exists ks. split; [|split; [done|]].
  - eapply Forall2_impl; [done|]. intros l k (t & Hl & Ht).
    exists t. split; [by eapply prefix_lookup_Some|done].
  - eapply Forall_impl; [done|]. intros k Hk. simpl in Hk. lia.
Qed.

Lemma stamped_snoc (ts : list (Transaction Time T)) (tk : nat) arr (data : T) :
  stamped now ts tk arr →
  stamped now (ts ++ [mkTransaction (now tk) data]) (S tk) (arr ++ [length ts]).
Proof.
  intros (ks & Hks & Hord & Hlt). exists (ks ++ [tk]). split; [|split].
  - apply Forall2_app.
    + eapply Forall2_impl; [done|]. intros l k (t & Hl & Ht).
      exists t. split; [by apply lookup_app_l_Some|done].
    + constructor; [|constructor].
      eexists. split; [by rewrite lookup_app_r, Nat.sub_diag by lia|done].
  - intros i j ki kj Hij Hi Hj.
    destruct (decide (j < length ks)%nat) as [Hjl|Hjl].
    + rewrite lookup_app_l in Hi, Hj by lia. exact (Hord i j ki kj Hij Hi Hj).
    + rewrite lookup_app_r in Hj by lia.
      destruct (j - length ks)%nat as [|n] eqn:E; [|by destruct n].
      injection Hj as <-.
      rewrite lookup_app_l in Hi by lia.
      rewrite Forall_forall in Hlt. apply Hlt. by eapply list_elem_of_lookup_2.
  - apply Forall_app. split.
    + eapply Forall_impl; [done|]. intros k Hk. simpl in Hk. lia.
    + apply Forall_singleton. lia.
Qed.

Lemma stamped_nil (ts : list (Transaction Time T)) (tk : nat) : stamped now ts tk [].
Proof. exists []. split; [constructor|]. split; [by intros [] ? ? ? ?|constructor]. Qed.

Lemma batched_stamped_exec (op : Batched.Op) (s : BState) :
  stamped now (txn_store (runtime s)) (ticks (runtime s))
    (Batched.p_transactions (this s) ++ Batched.p_buffer (this s)) →
  let s' := Batched.exec tsub now op s in
  stamped now (txn_store (runtime s')) (ticks (runtime s'))
    (Batched.p_transactions (this s') ++ Batched.p_buffer (this s')).
Proof.
  intros Hst s'. pose proof (batched_exec_ticks op s) as Htk. fold s' in Htk.
  destruct (exec_shape tsub now op s)
    as [(Ht & Hts & _)|[(b & hook & H)|[H|[[data H]|H]]]]; fold s' in Ht, Hts || fold s' in H.
  - rewrite Ht, Hts. by eapply stamped_grows.
  - rewrite H. done.
  - rewrite H. apply stamped_nil.
  - rewrite H. simpl. rewrite app_assoc. by apply stamped_snoc.
  - rewrite H. simpl. rewrite app_nil_r. eapply stamped_grows; [done| |done]. lia.
Qed.

Lemma simple_stamped_exec (op : Simple.Op) (s : SState) :
  stamped now (txn_store (runtime s)) (ticks (runtime s))
    (Simple.p_transactions (this s)) →
  let s' := Simple.exec tsub now op s in
  stamped now (txn_store (runtime s')) (ticks (runtime s'))
    (Simple.p_transactions (this s')).
Proof.
  intros Hst s'. pose proof (simple_exec_ticks op s) as Htk. fold s' in Htk.
  destruct (simple_exec_shape tsub now op s)
    as [(Ht & Hts & _)|[(b & hook & H)|[H|[data H]]]]; fold s' in Ht, Hts || fold s' in H.
  - rewrite Ht, Hts. by eapply stamped_grows.
  - rewrite H. done.
  - rewrite H. apply stamped_nil.
  - rewrite H. simpl. by apply stamped_snoc.
Qed.

Lemma stamped_ordered (tle : Time → Time → Prop) ts tk arr :
  (∀ i j, (i ≤ j)%nat → tle (now i) (now j)) →
  stamped now ts tk arr →
  ∀ (i j : nat) (li lj : loc),
    (i < j)%nat → arr !! i = Some li → arr !! j = Some lj →
    ∃ ti tj : Transaction Time T,
      ts !! li = Some ti ∧ ts !! lj = Some tj ∧ tle (txn_time ti) (txn_time tj).
Proof.
  intros Hmono (ks & Hks & Hord & _) i j li lj Hij Hi Hj.
  destruct (Forall2_lookup_l _ _ _ _ _ Hks Hi) as (ki & Hki & ti & Hti & Hti').
  destruct (Forall2_lookup_l _ _ _ _ _ Hks Hj) as (kj & Hkj & tj & Htj & Htj').
  exists ti, tj. do 2 (split; [done|]). rewrite Hti', Htj'.
  apply Hmono. specialize (Hord i j ki kj Hij Hki Hkj). lia.
Qed.

(** X15.  Let the clock never go back.  Then in every reachable state the
    transactions are held in the order of their times: in the batched log,
    along the committed transactions followed by the buffer, and in the
    simple log along the committed transactions, a transaction at an
    earlier position has a time that is not later than that of a
    transaction at a later position, and both have their records. *)
Theorem transactions_in_time_order
    (tle : Time → Time → Prop) (sb : BState) (ss : SState) :
  (∀ i j, (i ≤ j)%nat → tle (now i) (now j)) →
  (Batched.reachable tsub now sb →
     ∀ (i j : nat) (li lj : loc),
       (i < j)%nat →
       (Batched.p_transactions (this sb) ++ Batched.p_buffer (this sb)) !! i = Some li →
       (Batched.p_transactions (this sb) ++ Batched.p_buffer (this sb)) !! j = Some lj →
       ∃ ti tj : Transaction Time T,
         txn_store (runtime sb) !! li = Some ti
         ∧ txn_store (runtime sb) !! lj = Some tj
         ∧ tle (txn_time ti) (txn_time tj))
  ∧ (Simple.reachable tsub now ss →
       ∀ (i j : nat) (li lj : loc),
         (i < j)%nat →
         Simple.p_transactions (this ss) !! i = Some li →
         Simple.p_transactions (this ss) !! j = Some lj →
         ∃ ti tj : Transaction Time T,
           txn_store (runtime ss) !! li = Some ti
           ∧ txn_store (runtime ss) !! lj = Some tj
           ∧ tle (txn_time ti) (txn_time tj)).
Proof.
  intros Hmono. split; intros Hreach.
  - apply (stamped_ordered tle _ (ticks (runtime sb))); [done|].
    induction Hreach as [s [cbs Hi]|s op _ IH].
    + rewrite Hi. apply stamped_nil.
    + by apply batched_stamped_exec.
  - apply (stamped_ordered tle _ (ticks (runtime ss))); [done|].
    induction Hreach as [s [cbs Hi]|s op _ IH].
    + rewrite Hi. apply stamped_nil.
    + by apply simple_stamped_exec.
Qed.

End ClockOrder.

(** ** What is never written *)

Section NeverWritten.
Context {Time T W : Type}.
Variable tsub : Time → Time → Time.
Variable now : nat → Time.

Local Abbreviation BState := (Sys (Batched.Log Time T W) Time T W).
Local Abbreviation SState := (Sys (Simple.Log T W) Time T W).

(** X16.  The queries write nothing, in any state and for any arguments,
    whether they return or throw: after [isOpen], [countCommits],
    [countTransactions], [getSeqRangeTransactions] and [getSeqRangeCommits]
    the log, the stores, the clock, the timers and the caller's world are
    what they were, and no hook has been called. *)
Theorem queries_write_nothing (sb : BState) (ss : SState)
    (startId : Z) (finishId : option Z) :
  snd (Batched.isOpen sb) = sb
  ∧ snd (Batched.countCommits sb) = sb
  ∧ snd (Batched.countTransactions sb) = sb
  ∧ snd (Batched.getSeqRangeTransactions startId finishId sb) = sb
  ∧ snd (Batched.getSeqRangeCommits startId finishId sb) = sb
  ∧ snd (Simple.isOpen ss) = ss
  ∧ snd (Simple.countTransactions ss) = ss
  ∧ snd (Simple.getSeqRangeTransactions startId finishId ss) = ss.
Proof.
  assert (snd (Batched.getSeqRangeCommits startId finishId sb) = sb) as Hcommits.
  { unfold Batched.getSeqRangeCommits, Batched.field. unfold_M. cbn beta.
    destruct (negb _); [done|]. destruct (_ <? 1); [done|].
    destruct (JS.truthy finishId);
      match goal with
      | |- context [mapM _ ?arr sb] =>
          destruct (mapM_commit_info_reads sb sb arr) as [H _]; try done;
          by destruct (mapM Batched.commit_info arr sb) as [[] ?]
      end. }
  unfold Batched.isOpen, Batched.countCommits, Batched.countTransactions,
    Batched.getSeqRangeTransactions, Batched.field, Simple.isOpen,
    Simple.countTransactions, Simple.getSeqRangeTransactions, Simple.field.
  unfold_M. cbn beta.
  repeat split; try done.
  - by destruct (negb _).
  - by destruct (negb _).
  - destruct (negb _); [done|]. destruct (_ <? 1); [done|]. by destruct (JS.truthy _).
  - by destruct (negb _).
  - destruct (negb _); [done|]. destruct (_ <? 1); [done|]. by destruct (JS.truthy _).
Qed.

Lemma simple_exec_keeps_records (op : Simple.Op) (s : SState) :
  txn_store (runtime s) `prefix_of` txn_store (runtime (Simple.exec tsub now op s)).
Proof.
  destruct (simple_exec_shape tsub now op s)
    as [(_ & Hts & _)|[(b & hook & ->)|[->|[data ->]]]].
  - by rewrite Hts.
  - done.
  - done.
  - by apply prefix_app_r.
Qed.

(** X17.  No call removes or rewrites a record, not even [clear()]: along
    any sequence of calls, on either class, a reference that has a
    [Transaction] record ([Commit] record) keeps that very record, so what
    a caller was handed stays what it was. *)
Theorem records_never_change (sb : BState) (ss : SState)
    (opsb : list Batched.Op) (opss : list Simple.Op) :
  (∀ l t, txn_store (runtime sb) !! l = Some t →
          txn_store (runtime (Batched.run tsub now opsb sb)) !! l = Some t)
  ∧ (∀ c obj, commit_store (runtime sb) !! c = Some obj →
              commit_store (runtime (Batched.run tsub now opsb sb)) !! c = Some obj)
  ∧ (∀ l t, txn_store (runtime ss) !! l = Some t →
            txn_store (runtime (Simple.run tsub now opss ss)) !! l = Some t).
Proof.
  split; [|split].
  - revert sb. induction opsb as [|op ops IH]; intros sb l t Hl; [done|].
    simpl. apply IH. eapply prefix_lookup_Some; [done|].
    apply (exec_keeps_records tsub now op sb).
  - revert sb. induction opsb as [|op ops IH]; intros sb c obj Hc; [done|].
    simpl. apply IH. eapply prefix_lookup_Some; [done|].
    apply (exec_keeps_records tsub now op sb).
  - revert ss. induction opss as [|op ops IH]; intros ss l t Hl; [done|].
    simpl. apply IH. eapply prefix_lookup_Some; [done|].
    apply simple_exec_keeps_records.
Qed.

End NeverWritten.

(** ** The hooks *)

Section Hooks.
Context {Time T W : Type}.
Variable now : nat → Time.

Local Abbreviation BState := (Sys (Batched.Log Time T W) Time T W).
Local Abbreviation SState := (Sys (Simple.Log T W) Time T W).

(** The caller's world after an optional hook has been called. *)
Local Abbreviation fired hook w :=
  (match hook with Some f => f w | None => w end).


End Hooks.

(** * The further properties on the example logs *)

(** X1 on the batched log with two commits (open) and on the simple log after
    [close()]. *)
Lemma open_close_guards_witness :
  Batched.p_open (this Example.batched_two_commits) = true
  ∧ Simple.p_open (this Example.simple_closed) = false
  ∧ fails_with Batched.open LOG_ALREADY_OPEN_MESSAGE Example.batched_two_commits
  ∧ fails_with Simple.close LOG_ALREADY_CLOSED_MESSAGE Example.simple_closed.
Proof.
  split; [reflexivity|]. split; [reflexivity|].
  destruct (open_close_guards Example.batched_two_commits Example.simple_closed)
    as (Hb & _ & _ & Hs).
  split.
  - exact (proj1 (Hb eq_refl)).
  - exact (proj1 (Hs eq_refl)).
Defined.


(** X4 on the batched log with two commits. *)
Lemma append_is_buffered_witness :
  Batched.p_open (this Example.batched_two_commits) = true
  ∧ ∃ s', Batched.append Example.clock "quux"%string Example.batched_two_commits
          = (Ok tt, s')
        ∧ fst (Batched.countTransactions s')
          = fst (Batched.countTransactions Example.batched_two_commits).
Proof.
  split; [reflexivity|].
  destruct (append_is_buffered Example.clock Example.batched_two_commits
              "quux"%string eq_refl) as (s' & l & H1 & _ & _ & _ & _ & H2 & _).
  exists s'. split; assumption.
Defined.

(** X5 on the same log, with the start id 0. *)
Lemma getSeqRangeCommits_invalid_start_witness :
  Batched.p_open (this Example.batched_two_commits) = true
  ∧ 0 < 1
  ∧ fails_with (Batched.getSeqRangeCommits 0 None) INVALID_SEQUENCE_ID_MESSAGE
               Example.batched_two_commits.
Proof.
  split; [reflexivity|]. split; [lia|].
  exact (getSeqRangeCommits_invalid_start Example.batched_two_commits 0 None
           eq_refl ltac:(lia)).
Defined.

(** X6 on the batched log with three committed transactions and the simple
    log with two: all but the last. *)
Lemma negative_finish_counts_from_end_witness :
  1 ≤ 1 ∧ -1 < 0
  ∧ Batched.p_open (this Example.batched_two_commits) = true
  ∧ Simple.p_open (this Example.simple_appended) = true
  ∧ returns (Batched.getSeqRangeTransactions 1 (Some (-1))) [0%nat; 1%nat]
            Example.batched_two_commits
  ∧ returns (Simple.getSeqRangeTransactions 1 (Some (-1))) [0%nat]
            Example.simple_appended.
Proof.
  split; [lia|]. split; [lia|]. split; [reflexivity|]. split; [reflexivity|].
  destruct (negative_finish_counts_from_end
              Example.batched_two_commits Example.simple_appended 1 (-1)
              ltac:(lia) ltac:(lia)) as [Hb Hs].
  split.
  - exact (Hb eq_refl).
  - exact (Hs eq_refl).
Defined.

(** X7 on the same two logs: the transaction with the id 2. *)
Lemma range_positions_witness :
  1 ≤ 2 ∧ 1 ≤ 2
  ∧ Batched.p_open (this Example.batched_two_commits) = true
  ∧ Simple.p_open (this Example.simple_appended) = true
  ∧ (∃ r, returns (Batched.getSeqRangeTransactions 2 (Some 2)) r
                  Example.batched_two_commits
        ∧ Z.of_nat (length r) = 1
        ∧ r !! 0%nat = Some 1%nat)
  ∧ (∃ r, returns (Simple.getSeqRangeTransactions 2 (Some 2)) r
                  Example.simple_appended
        ∧ Z.of_nat (length r) = 1
        ∧ r !! 0%nat = Some 1%nat).
Proof.
  split; [lia|]. split; [lia|]. split; [reflexivity|]. split; [reflexivity|].
  destruct (range_positions Example.batched_two_commits Example.simple_appended 2 2
              ltac:(lia) ltac:(lia)) as [Hb Hs].
  destruct (Hb eq_refl) as (rb & Hb1 & Hb2 & Hb3).
  destruct (Hs eq_refl) as (rs & Hs1 & Hs2 & Hs3).
  split.
  - exists rb. split; [exact Hb1|]. split; [exact Hb2|]. exact (Hb3 2 ltac:(lia)).
  - exists rs. split; [exact Hs1|]. split; [exact Hs2|]. exact (Hs3 2 ltac:(lia)).
Defined.

(** X8 on the batched log with two commits. *)
Lemma commits_partition_transactions_witness :
  Batched.reachable Z.sub Example.clock Example.batched_two_commits
  ∧ partitioned Example.batched_two_commits.
Proof.
  pose proof (example_batched_reachable Example.batched_two_commits_ops) as Hreach.
  split; [exact Hreach|].
  exact (proj1 (commits_partition_transactions Z.sub Example.clock
                  Example.batched_two_commits Hreach)).
Defined.

(** X9 on the same log. *)
Lemma commits_flatten_to_transactions_witness :
  Batched.reachable Z.sub Example.clock Example.batched_two_commits
  ∧ Batched.p_open (this Example.batched_two_commits) = true
  ∧ ∃ infos,
      returns (Batched.getSeqRangeCommits 1 None) infos Example.batched_two_commits
      ∧ ci_id <$> infos = [1; 2]
      ∧ concat (ci_transactions <$> infos) = [Some 0%nat; Some 1%nat; Some 2%nat].
Proof.
  pose proof (example_batched_reachable Example.batched_two_commits_ops) as Hreach.
  split; [exact Hreach|]. split; [reflexivity|].
  destruct (commits_flatten_to_transactions Z.sub Example.clock
              Example.batched_two_commits Hreach eq_refl)
    as (infos & txns & H1 & _ & -> & H4 & H5).
  exists infos. split; [exact H1|]. split; [exact H4|exact H5].
Defined.

(** X10 on the same log and on the simple log with two transactions. *)
Lemma references_distinct_witness :
  Batched.reachable Z.sub Example.clock Example.batched_two_commits
  ∧ Simple.reachable Z.sub Example.clock Example.simple_appended
  ∧ NoDup (Batched.p_transactions (this Example.batched_two_commits)
           ++ Batched.p_buffer (this Example.batched_two_commits))
  ∧ NoDup (Simple.p_transactions (this Example.simple_appended)).
Proof.
  pose proof (example_batched_reachable Example.batched_two_commits_ops) as Hb.
  pose proof (example_simple_reachable Example.simple_appended_ops) as Hs.
  split; [exact Hb|]. split; [exact Hs|].
  destruct (references_distinct Z.sub Example.clock
              Example.batched_two_commits Example.simple_appended) as [Hdb Hds].
  split; [exact (Hdb Hb)|exact (Hds Hs)].
Defined.

(** X11 on the same log, whose buffer holds one transaction: the third
    commit holds the buffered transaction and the two new ones. *)
Lemma appends_then_commit_witness :
  Batched.reachable Z.sub Example.clock Example.batched_two_commits
  ∧ Batched.p_open (this Example.batched_two_commits) = true
  ∧ ["a"; "b"]%string ≠ []
  ∧ ∃ locs time,
      returns (Batched.getSeqRangeCommits 3 None)
              [mkCommitInfo 3 time (Some <$> (3%nat :: locs))]
              (Batched.run Z.sub Example.clock
                 ((Batched.OpAppend <$> ["a"; "b"]%string) ++ [Batched.OpCommit])
                 Example.batched_two_commits).
Proof.
  pose proof (example_batched_reachable Example.batched_two_commits_ops) as Hreach.
  split; [exact Hreach|]. split; [reflexivity|]. split; [discriminate|].
  destruct (appends_then_commit Z.sub Example.clock Example.batched_two_commits
              ["a"; "b"]%string Hreach eq_refl ltac:(discriminate))
    as (locs & time & _ & _ & _ & H & _).
  exists locs, time. exact H.
Defined.

(** X12 on the simple log with two transactions. *)
Lemma simple_appends_then_query_witness :
  Simple.p_open (this Example.simple_appended) = true
  ∧ ∃ locs,
      returns Simple.countTransactions 4
              (Simple.run Z.sub Example.clock (Simple.OpAppend <$> ["a"; "b"]%string)
                 Example.simple_appended)
      ∧ returns (Simple.getSeqRangeTransactions 3 None) locs
                (Simple.run Z.sub Example.clock (Simple.OpAppend <$> ["a"; "b"]%string)
                   Example.simple_appended).
Proof.
  split; [reflexivity|].
  destruct (simple_appends_then_query Z.sub Example.clock Example.simple_appended
              ["a"; "b"]%string eq_refl) as (locs & _ & H1 & H2 & _).
  exists locs. split; [exact H1|exact H2].
Defined.


(** X14 on the batched log with a buffer and no commit, and on a simple log
    that was only opened. *)
Lemma replay_nothing_committed_witness :
  Batched.p_open (this Example.batched_buffered) = true
  ∧ Batched.p_transactions (this Example.batched_buffered) = []
  ∧ Batched.p_buffer (this Example.batched_buffered) ≠ []
  ∧ returns (Batched.replay Z.sub Example.clock Example.record (Some true)) tt
            Example.batched_buffered
  ∧ returns (Simple.replay Z.sub Example.clock Example.record None) tt
            (Simple.run Z.sub Example.clock [Simple.OpOpen] Example.new_simple).
Proof.
  split; [reflexivity|]. split; [reflexivity|]. split; [discriminate|].
  split.
  - exact (proj1 (replay_nothing_committed Z.sub Example.clock
                    Example.batched_buffered Example.new_simple
                    Example.record (Some true)) eq_refl eq_refl).
  - exact (proj2 (replay_nothing_committed Z.sub Example.clock
                    Example.batched_buffered
                    (Simple.run Z.sub Example.clock [Simple.OpOpen] Example.new_simple)
                    Example.record None) eq_refl eq_refl).
Defined.

(** X15 with the clock of the examples, which goes up by 10 at each
    reading. *)
Lemma transactions_in_time_order_witness :
  (∀ i j, (i ≤ j)%nat → Example.clock i ≤ Example.clock j)
  ∧ Batched.reachable Z.sub Example.clock Example.batched_two_commits
  ∧ ∃ ti tj : Transaction Z string,
      txn_store (runtime Example.batched_two_commits) !! 0%nat = Some ti
      ∧ txn_store (runtime Example.batched_two_commits) !! 3%nat = Some tj
      ∧ txn_time ti ≤ txn_time tj.
Proof.
  assert (∀ i j, (i ≤ j)%nat → Example.clock i ≤ Example.clock j) as Hmono.
  { intros i j Hij. unfold Example.clock. lia. }
  pose proof (example_batched_reachable Example.batched_two_commits_ops) as Hreach.
  split; [exact Hmono|]. split; [exact Hreach|].
  exact (proj1 (transactions_in_time_order Z.sub Example.clock Z.le
                  Example.batched_two_commits Example.simple_appended Hmono)
           Hreach 0%nat 3%nat 0%nat 3%nat ltac:(lia) eq_refl eq_refl).
Defined.

(** X17 on the batched log with two commits: after [close()] and [clear()]
    the record of the first transaction is still the one holding ["foo"]. *)
Lemma records_never_change_witness :
  txn_store (runtime Example.batched_two_commits) !! 0%nat
  = Some (mkTransaction 0 "foo"%string)
  ∧ txn_store (runtime (Batched.run Z.sub Example.clock
                          [Batched.OpClose; Batched.OpClear]
                          Example.batched_two_commits)) !! 0%nat
    = Some (mkTransaction 0 "foo"%string).
Proof.
  split; [reflexivity|].
  exact (proj1 (records_never_change Z.sub Example.clock
                  Example.batched_two_commits Example.simple_appended
                  [Batched.OpClose; Batched.OpClear] [])
           0%nat (mkTransaction 0 "foo"%string) eq_refl).
Defined.

